(** * Event logging engine of the backend ([apps/backend/src/lib/events.tsx])

    A shallow embedding of [logEvent]: the precondition on the requested
    event types, the closure over the [inherits] relation, the validation
    pipeline, the time extent and the record handed to
    [prismaClient.event.create].

    [EventType] values are JavaScript objects: the [Set] of the closure
    compares them by identity, and an object reached along two inheritance
    paths is the same object.  They therefore live in a store indexed by
    references, and [inherits] holds references.

    Also embedded: [stripEventTypeSuffixFromKeys] of the same file, the path
    handling of the script that writes the OpenAPI schemas, and the server
    interface [StackServerInterface] over an abstract [sendClientRequest]. *)

From stdpp Require Import gmap strings list fin_maps pretty.
From Stdlib Require Import ZArith.

Open Scope string_scope.
Open Scope list_scope.
Open Scope nat_scope.

(** ** Data *)

(** A [Date], in milliseconds since the epoch. *)
Definition Date := Z.
Bind Scope Z_scope with Date.

(** The identity of an [EventType] object. *)
Definition ref := nat.

(** Payloads (the [data] argument) are JavaScript values; the properties of
    an object are kept in insertion order. *)
#[local] Set Warnings "-register-all".
Inductive Value :=
| VUndefined
| VNull
| VBool (b : bool)
| VNumber (n : Z)
| VString (s : string)
| VObject (props : list (string * Value)).

(** Property read [v[k]]; a missing property reads as [undefined]. *)
Definition getField (k : string) (v : Value) : Value :=
  match v with
  | VObject props =>
      match find (λ p, bool_decide (p.1 = k)) props with
      | Some p => p.2
      | None => VUndefined
      end
  | _ => VUndefined
  end.

(** The second argument of [Schema.validate]. *)
Record ValidateOptions := {
  strict : bool;
  stripUnknown : bool;
}.

(** What the promise of [validate] rejects with: a [yup.ValidationError], or
    anything else. *)
Inductive SchemaError :=
| ValidationError (message : string)
| OtherError (message : string).

Inductive Validated :=
| Resolved (value : Value)
| Rejected (error : SchemaError).

(** [yup.Schema<any>]: the keys of its shape ([fields], empty for a schema
    that is not an object schema) and its [validate] method. *)
Record Schema := {
  fields : list string;
  validate : Value → ValidateOptions → Validated;
}.

(** [type EventType = { id, dataSchema, inherits }]. *)
Record EventType := {
  id : string;
  dataSchema : Schema;
  inherits : list ref;
}.

(** The record given to [prismaClient.event.create]. *)
Record EventRecord := {
  systemEventTypeIds : list string;
  data : Value;
  isWide : bool;
  eventStartedAt : Date;
  eventEndedAt : Date;
}.

(** [time?: Date | { start: Date, end: Date }]. *)
Inductive TimeArg :=
| TimeDate (d : Date)
| TimeRange (start end_ : Date).

Record Options := {
  time : option TimeArg;
}.

(** The second argument of [new StackAssertionError(message, extraData, ...)]:
    [{ eventType }] in the precondition loop,
    [{ eventType, data, error, originalData, originalEventTypes }] in the
    validation loop. *)
Inductive ExtraData :=
| ExtraEventType (eventType : ref)
| ExtraInvalidData (eventType : ref) (data : Value) (error : SchemaError)
    (originalData : Value) (originalEventTypes : list ref).

(** Everything [logEvent] can throw. *)
Inductive Thrown :=
| StackAssertionError (message : string) (extraData : ExtraData)
    (cause : option SchemaError)
| Rethrown (error : SchemaError)
| StorageError (message : string).

(** The calls [logEvent] makes to its collaborators, in order. *)
Inductive Call :=
| CallValidate (eventType : ref) (value : Value) (options : ValidateOptions)
| CallCreate (record : EventRecord).

(** What surrounds a call: the store of [EventType] objects, the index
    [systemEventTypesById], the clock read by [new Date()], and the sink
    [prismaClient.event.create] ([Some message] when it rejects). *)
Record Env := {
  objects : gmap ref EventType;
  eventTypesById : gmap string ref;
  currentDate : Date;
  eventCreate : EventRecord → option string;
}.

(** ** Effects

    A computation runs on the trace of calls made so far.  It returns, throws,
    or is [Stuck]: a reference that is not in the store, or a traversal out of
    fuel; neither happens on a store closed under [inherits]
    ([logEvent_not_stuck]). *)
Inductive Res (A : Type) :=
| Ok (a : A)
| Throw (e : Thrown)
| Stuck.
Arguments Ok {A} a.
Arguments Throw {A} e.
Arguments Stuck {A}.

Definition M (A : Type) : Type := list Call → Res A * list Call.

#[export] Instance M_ret : MRet M := λ A a t, (Ok a, t).

#[export] Instance M_bind : MBind M := λ A B k m t,
  match m t with
  | (Ok a, t') => k a t'
  | (Throw e, t') => (Throw e, t')
  | (Stuck, t') => (Stuck, t')
  end.

Definition throw {A} (e : Thrown) : M A := λ t, (Throw e, t).

Definition liftOption {A} (o : option A) : M A := λ t,
  match o with
  | Some a => (Ok a, t)
  | None => (Stuck, t)
  end.

(** Reading an [EventType] object through its reference. *)
Definition deref (objs : gmap ref EventType) (r : ref) : M EventType :=
  liftOption (objs !! r).

(** [await schema.validate(value, options)], under [try]: the call is
    recorded and its settlement returned. *)
Definition callValidate (r : ref) (schema : Schema) (value : Value)
    (options : ValidateOptions) : M Validated := λ t,
  (Ok (validate schema value options), t ++ [CallValidate r value options]).

(** [await prismaClient.event.create({ data: record })]. *)
Definition callCreate (sink : EventRecord → option string)
    (record : EventRecord) : M unit := λ t,
  (match sink record with
   | None => Ok ()
   | Some message => Throw (StorageError message)
   end, t ++ [CallCreate record]).

(** [for (const x of xs) body], run for its effects. *)
Fixpoint forOf {A} (xs : list A) (body : A → M unit) : M unit :=
  match xs with
  | [] => mret ()
  | x :: xs' => body x;; forOf xs' body
  end.

(** [xs.map(f)] with an effectful [f]. *)
Fixpoint mapM {A B} (f : A → M B) (xs : list A) : M (list B) :=
  match xs with
  | [] => mret []
  | x :: xs' => y ← f x; ys ← mapM f xs'; mret (y :: ys)
  end.

Definition run {A} (m : M A) : Res A * list Call := m [].

(** ** The closure

    [allEventTypes] is a [Set<EventType>]: membership is object identity and
    iteration is insertion order, so it is a list of references without
    repetition. *)
Definition Set_has (s : list ref) (r : ref) : bool := bool_decide (r ∈ s).

Definition Set_add (s : list ref) (r : ref) : list ref :=
  if Set_has s r then s else s ++ [r].

(** [xs.forEach(f)] for an [f] that updates the set. *)
Fixpoint forEach (f : ref → list ref → option (list ref)) (xs : list ref)
    (s : list ref) : option (list ref) :=
  match xs with
  | [] => Some s
  | x :: xs' =>
      match f x s with
      | Some s' => forEach f xs' s'
      | None => None
      end
  end.

(** The local function [addEventType]; every nested call uses one unit of
    [fuel]. *)
Fixpoint addEventType (fuel : nat) (objs : gmap ref EventType)
    (eventType : ref) (allEventTypes : list ref) : option (list ref) :=
  match fuel with
  | O => None
  | S fuel' =>
      if Set_has allEventTypes eventType then Some allEventTypes
      else
        match objs !! eventType with
        | Some et =>
            forEach (addEventType fuel' objs) (inherits et)
              (Set_add allEventTypes eventType)
        | None => None
        end
  end.

(** [eventTypes.forEach(addEventType)] on an empty set.  A nested call that
    does not return at once adds an object to the set, so one unit of fuel
    per object of the store, and one more, is enough. *)
Definition resolveClosure (objs : gmap ref EventType) (eventTypes : list ref)
    : option (list ref) :=
  forEach (addEventType (S (size objs)) objs) eventTypes [].

(** ** [logEvent] *)

(** [options.time ?? new Date()]. *)
Definition timeOrTimeRange (env : Env) (options : Options) : TimeArg :=
  match time options with
  | Some t => t
  | None => TimeDate (currentDate env)
  end.

(** ["start" in t && "end" in t ? t : { start: t, end: t }], with the answer
    of [timeOrTimeRange === timeRange]: the first branch returns the very
    object it was given, the second a fresh object literal. *)
Definition timeRange (t : TimeArg) : (Date * Date) * bool :=
  match t with
  | TimeRange s e => ((s, e), true)
  | TimeDate d => ((d, d), false)
  end.

Definition Map_has (m : gmap string ref) (k : string) : bool :=
  match m !! k with
  | Some _ => true
  | None => false
  end.

(** The body of the loop that asserts that all event types are valid. *)
Definition assertValid (env : Env) (r : ref) : M unit :=
  eventType ← deref (objects env) r;
  if String.prefix "$" (id eventType) then
    if Map_has (eventTypesById env) (id eventType) then mret ()
    else throw (StackAssertionError
                  ("Invalid system event type: " +:+ id eventType)
                  (ExtraEventType r) None)
  else throw (StackAssertionError
                "Non-system event types are not supported yet"
                (ExtraEventType r) None).

Definition validateOptions : ValidateOptions :=
  {| strict := true; stripUnknown := false |}.

(** The loop that validates and transforms [data]. *)
Fixpoint validateAll (objs : gmap ref EventType) (originalData : Value)
    (eventTypes : list ref) (allEventTypes : list ref) (data : Value)
    : M Value :=
  match allEventTypes with
  | [] => mret data
  | r :: rest =>
      eventType ← deref objs r;
      settled ← callValidate r (dataSchema eventType) data validateOptions;
      match settled with
      | Resolved data' => validateAll objs originalData eventTypes rest data'
      | Rejected error =>
          match error with
          | ValidationError _ =>
              throw (StackAssertionError
                       ("Invalid event data for event type: " +:+ id eventType)
                       (ExtraInvalidData r data error originalData eventTypes)
                       (Some error))
          | OtherError _ => throw (Rethrown error)
          end
      end
  end.

Definition logEvent (env : Env) (eventTypes : list ref) (data : Value)
    (options : Options) : M unit :=
  let '(range, wide) := timeRange (timeOrTimeRange env options) in
  forOf eventTypes (assertValid env);;
  allEventTypes ← liftOption (resolveClosure (objects env) eventTypes);
  data' ← validateAll (objects env) data eventTypes allEventTypes data;
  ids ← mapM (λ r, eventType ← deref (objects env) r; mret (id eventType))
              allEventTypes;
  callCreate (eventCreate env) {|
    systemEventTypeIds := ids;
    data := data';
    isWide := wide;
    eventStartedAt := range.1;
    eventEndedAt := range.2;
  |}.

(** ** The schema primitive layer *)

(** Modelled from the spec: the schema builders [yupObject], [yupString],
    [yupMixed] and [urlSchema] that [events.tsx] imports from
    [stack-shared/dist/schema-fields], and the validation they wrap.  A field
    is a string, an object or anything; it is required or optional, nullable
    or not, and a string field may carry a test. *)
Inductive FieldKind := KString | KObject | KMixed.

Record FieldSchema := {
  kind : FieldKind;
  isRequired : bool;
  isNullable : bool;
  test : string → bool;
}.

Definition yupString : FieldSchema :=
  {| kind := KString; isRequired := false; isNullable := false;
     test := λ _, true |}.

Definition yupMixed : FieldSchema :=
  {| kind := KMixed; isRequired := false; isNullable := false;
     test := λ _, true |}.

Definition yupObjectField : FieldSchema :=
  {| kind := KObject; isRequired := false; isNullable := false;
     test := λ _, true |}.

Definition required (f : FieldSchema) : FieldSchema :=
  {| kind := kind f; isRequired := true; isNullable := isNullable f;
     test := test f |}.

Definition optional (f : FieldSchema) : FieldSchema :=
  {| kind := kind f; isRequired := false; isNullable := isNullable f;
     test := test f |}.

Definition nullable (f : FieldSchema) : FieldSchema :=
  {| kind := kind f; isRequired := isRequired f; isNullable := true;
     test := test f |}.

Definition withTest (p : string → bool) (f : FieldSchema) : FieldSchema :=
  {| kind := kind f; isRequired := isRequired f; isNullable := isNullable f;
     test := λ s, test f s && p s |}.

Definition oneOf (allowed : list string) : FieldSchema → FieldSchema :=
  withTest (λ s, bool_decide (s ∈ allowed)).

(** A value against a field, with no coercion: [undefined] passes unless the
    field is required, [null] passes when the field is nullable, and anything
    else must have the field's type (a required string is not empty). *)
Definition checkField (f : FieldSchema) (v : Value) : bool :=
  match v with
  | VUndefined => negb (isRequired f)
  | VNull => isNullable f
  | _ =>
      match kind f, v with
      | KMixed, _ => true
      | KObject, VObject _ => true
      | KString, VString s =>
          negb (isRequired f && bool_decide (s = "")) && test f s
      | _, _ => false
      end
  end.

(** The implicit coercion of a cast: a number or a boolean where a string is
    declared becomes a string. *)
Definition coerce (f : FieldSchema) (v : Value) : Value :=
  match kind f, v with
  | KString, VNumber n => VString (pretty n)
  | KString, VBool b => VString (if b then "true" else "false")
  | _, _ => v
  end.

Definition shapeField (shape : list (string * FieldSchema)) (k : string)
    : option FieldSchema :=
  snd <$> find (λ p, bool_decide (p.1 = k)) shape.

(** The cast that [validate] runs when it is not strict: declared properties
    are coerced, and properties that are not declared are dropped under
    [stripUnknown]. *)
Definition castProps (stripUnknown : bool)
    (shape : list (string * FieldSchema)) (props : list (string * Value))
    : list (string * Value) :=
  omap (λ p,
    match shapeField shape p.1 with
    | Some f => Some (p.1, coerce f p.2)
    | None => if stripUnknown then None else Some p
    end) props.

Definition validateObject (shape : list (string * FieldSchema)) (v : Value)
    (options : ValidateOptions) : Validated :=
  match v with
  | VUndefined => Resolved VUndefined
  | VObject props =>
      let props' :=
        if strict options then props
        else castProps (stripUnknown options) shape props in
      match find (λ p, negb (checkField p.2 (getField p.1 (VObject props'))))
              shape with
      | Some p => Rejected (ValidationError (p.1 +:+ " is invalid"))
      | None => Resolved (VObject props')
      end
  | _ => Rejected (ValidationError "this must be an object")
  end.

Definition yupObject (shape : list (string * FieldSchema)) : Schema :=
  {| fields := shape.*1; validate := validateObject shape |}.

(** ** The system event types *)

Section SystemEventTypes.
(** [HTTP_METHODS], the [uuid] test of yup and the test of [urlSchema] are
    defined outside [events.tsx]. *)
Variable HTTP_METHODS : list string.
Variable isUuid : string → bool.
Variable isUrl : string → bool.

Definition ProjectEventType_ref : ref := 0.
Definition ProjectActivityEventType_ref : ref := 1.
Definition UserActivityEventType_ref : ref := 2.
Definition ApiRequestEventType_ref : ref := 3.

Definition ProjectEventType : EventType := {|
  id := "$project";
  dataSchema := yupObject [("projectId", required yupString)];
  inherits := [];
|}.

Definition ProjectActivityEventType : EventType := {|
  id := "$project-activity";
  dataSchema := yupObject [];
  inherits := [ProjectEventType_ref];
|}.

Definition UserActivityEventType : EventType := {|
  id := "$user-activity";
  dataSchema := yupObject [("userId", required (withTest isUuid yupString))];
  inherits := [ProjectActivityEventType_ref];
|}.

Definition ApiRequestEventType : EventType := {|
  id := "$api-request";
  dataSchema := yupObject [
    ("method", required (oneOf HTTP_METHODS yupString));
    ("url", required (withTest isUrl yupString));
    ("body", optional (nullable yupMixed));
    ("headers", required yupObjectField)
  ];
  inherits := [ProjectEventType_ref];
|}.

(** The four object literals, at their references. *)
Definition systemObjects : gmap ref EventType :=
  list_to_map [
    (ProjectEventType_ref, ProjectEventType);
    (ProjectActivityEventType_ref, ProjectActivityEventType);
    (UserActivityEventType_ref, UserActivityEventType);
    (ApiRequestEventType_ref, ApiRequestEventType)
  ].

(** [SystemEventTypes], with the suffix of its keys stripped. *)
Definition SystemEventTypes : list (string * ref) := [
  ("Project", ProjectEventType_ref);
  ("ProjectActivity", ProjectActivityEventType_ref);
  ("UserActivity", UserActivityEventType_ref);
  ("ApiRequest", ApiRequestEventType_ref)
].

(** [new Map(Object.values(SystemEventTypes).map(t => [t.id, t]))]; a later
    entry replaces an earlier one with the same key. *)
Definition systemEventTypesById : gmap string ref :=
  foldl (λ m r,
           match systemObjects !! r with
           | Some et => <[id et := r]> m
           | None => m
           end) ∅ (SystemEventTypes.*2).

(** The backend, with only the system event types in its store. *)
Definition backendEnv (now : Date) (sink : EventRecord → option string)
    : Env := {|
  objects := systemObjects;
  eventTypesById := systemEventTypesById;
  currentDate := now;
  eventCreate := sink;
|}.
End SystemEventTypes.

(** ** Vocabulary of the specification *)

(** [y] is one of the [inherits] of [x]. *)
Definition parentOf (objs : gmap ref EventType) (x y : ref) : Prop :=
  ∃ et, objs !! x = Some et ∧ y ∈ inherits et.

(** [y] is one of [roots] or an ancestor of one of them. *)
Definition reachable (objs : gmap ref EventType) (roots : list ref) (y : ref)
    : Prop :=
  ∃ r, r ∈ roots ∧ rtc (parentOf objs) r y.

(** Every reference held by an object of the store is in the store, as it is
    for JavaScript objects. *)
Definition storeClosed (objs : gmap ref EventType) : Prop :=
  map_Forall (λ _ et, Forall (λ p, is_Some (objs !! p)) (inherits et)) objs.

(** The precondition of the specification on one requested type: its
    identifier is in the system namespace and in the index. *)
Definition meetsPrecondition (env : Env) (r : ref) : bool :=
  match objects env !! r with
  | Some et =>
      String.prefix "$" (id et) && bool_decide (is_Some (eventTypesById env !! id et))
  | None => false
  end.

(** The pipeline of the specification: each schema in turn, on the output of
    the one before; [None] when one of them rejects. *)
Fixpoint applySequentially (options : ValidateOptions)
    (schemas : list Schema) (payload : Value) : option Value :=
  match schemas with
  | [] => Some payload
  | s :: rest =>
      match validate s payload options with
      | Resolved payload' => applySequentially options rest payload'
      | Rejected _ => None
      end
  end.

(** The schemas of a list of event types. *)
Definition schemasOf (objs : gmap ref EventType) (rs : list ref)
    : list Schema :=
  omap (λ r, dataSchema <$> objs !! r) rs.

(** A schema that keeps, under [stripUnknown: false], the properties it does
    not declare. *)
Definition keepsUnknown (s : Schema) : Prop :=
  ∀ options v v', stripUnknown options = false →
    validate s v options = Resolved v' →
    ∀ k, k ∉ fields s → getField k v' = getField k v.

(** The records the sink has received, and the validations run. *)
Definition persisted (calls : list Call) : list EventRecord :=
  omap (λ c, match c with CallCreate r => Some r | _ => None end) calls.

Definition validations (calls : list Call) : list (ref * Value) :=
  omap (λ c, match c with
             | CallValidate r v _ => Some (r, v)
             | _ => None
             end) calls.

(** The number of objects of the store that are not yet in the set: what a
    nested call of [addEventType] decreases. *)
Definition unvisited (objs : gmap ref EventType) (s : list ref) : nat :=
  size (dom objs ∖ list_to_set s : gset ref).

(** What one call of [addEventType], or a [forEach] of them, does to the set
    [s], giving [s']: it appends, it keeps the set free of repetitions, it
    adds only objects of the store that are reachable from [roots], and all
    the parents of what it adds are in [s']. *)
Definition extends (objs : gmap ref EventType) (roots s s' : list ref)
    : Prop :=
  (∃ new, s' = s ++ new) ∧
  (NoDup s → NoDup s') ∧
  (∀ x, x ∈ s' → x ∈ s ∨ (reachable objs roots x ∧ is_Some (objs !! x))) ∧
  (∀ x, x ∈ s' → x ∉ s → ∀ y, parentOf objs x y → y ∈ s').

(** The validations the pipeline runs on [rs] from [payload]: each event type
    receives the output of the one before it, up to and including the first
    that rejects. *)
Fixpoint pipelineCalls (objs : gmap ref EventType) (rs : list ref)
    (payload : Value) : list Call :=
  match rs with
  | [] => []
  | r :: rest =>
      match objs !! r with
      | Some et =>
          CallValidate r payload {| strict := true; stripUnknown := false |} ::
          match validate (dataSchema et) payload
                  {| strict := true; stripUnknown := false |} with
          | Resolved payload' => pipelineCalls objs rest payload'
          | Rejected _ => []
          end
      | None => []
      end
  end.

(** The identifiers of a list of event types. *)
Definition idsOf (objs : gmap ref EventType) (rs : list ref) : list string :=
  omap (λ r, id <$> objs !! r) rs.

(** What the precondition loop throws at the event type [r]. *)
Definition preconditionFailure (env : Env) (r : ref) : Res unit :=
  match objects env !! r with
  | Some et =>
      Throw (StackAssertionError
               (if String.prefix "$" (id et)
                then "Invalid system event type: " +:+ id et
                else "Non-system event types are not supported yet")
               (ExtraEventType r) None)
  | None => Stuck
  end.

(** What the validation loop throws when the schema of [r] rejects [payload]
    with [error]. *)
Definition validationFailure (et : EventType) (r : ref) (payload : Value)
    (error : SchemaError) (originalData : Value)
    (originalEventTypes : list ref) : Thrown :=
  match error with
  | ValidationError _ =>
      StackAssertionError
        ("Invalid event data for event type: " +:+ id et)
        (ExtraInvalidData r payload error originalData originalEventTypes)
        (Some error)
  | OtherError _ => Rethrown error
  end.

(** The settlement of the sink, as [logEvent] passes it on. *)
Definition sinkResult (env : Env) (record : EventRecord) : Res unit :=
  match eventCreate env record with
  | None => Ok ()
  | Some message => Throw (StorageError message)
  end.

(** The ways a call of [logEvent] ends, with the calls it has made: at a
    requested type that fails the precondition, in the traversal of a store
    that is not closed, at a schema that rejects, or at the sink. *)
Inductive LogEventRun (env : Env) (eventTypes : list ref) (payload : Value)
    (options : Options) : Res unit * list Call → Prop :=
| run_precondition r :
    r ∈ eventTypes →
    meetsPrecondition env r = false →
    preconditionFailure env r ≠ Ok () →
    LogEventRun env eventTypes payload options (preconditionFailure env r, [])
| run_stuck :
    Forall (λ r, meetsPrecondition env r = true) eventTypes →
    resolveClosure (objects env) eventTypes = None →
    LogEventRun env eventTypes payload options (Stuck, [])
| run_invalid closure e :
    Forall (λ r, meetsPrecondition env r = true) eventTypes →
    resolveClosure (objects env) eventTypes = Some closure →
    applySequentially {| strict := true; stripUnknown := false |}
      (schemasOf (objects env) closure) payload = None →
    (∀ m, e ≠ StorageError m) →
    LogEventRun env eventTypes payload options
      (Throw e, pipelineCalls (objects env) closure payload)
| run_created closure d record :
    Forall (λ r, meetsPrecondition env r = true) eventTypes →
    resolveClosure (objects env) eventTypes = Some closure →
    applySequentially {| strict := true; stripUnknown := false |}
      (schemasOf (objects env) closure) payload = Some d →
    systemEventTypeIds record = idsOf (objects env) closure →
    data record = d →
    ((eventStartedAt record, eventEndedAt record), isWide record)
      = timeRange (timeOrTimeRange env options) →
    LogEventRun env eventTypes payload options
      (sinkResult env record,
       pipelineCalls (objects env) closure payload ++ [CallCreate record]).

(** ** Stores and payloads to run the engine on *)

(** An event type with a schema that declares nothing. *)
Definition plainType (name : string) (parents : list ref) : EventType :=
  {| id := name; dataSchema := yupObject []; inherits := parents |}.

(** A diamond: 10 inherits from 11 and 12, which both inherit from 13. *)
Definition diamondStore : gmap ref EventType :=
  list_to_map [
    (10, plainType "$A" [11; 12]);
    (11, plainType "$B" [13]);
    (12, plainType "$C" [13]);
    (13, plainType "$D" [])
  ].

(** The system event types with the tests left open, and a sink that accepts
    everything. *)
Definition testEnv (now : Date) : Env :=
  backendEnv ["GET"; "POST"] (λ _, true) (λ _, true) now (λ _, None).

(** A system event type whose parent is neither in the system namespace nor
    in the index. *)
Definition legacyEnv : Env := {|
  objects := list_to_map [
    (0, {| id := "$project";
           dataSchema := yupObject [("projectId", required yupString)];
           inherits := [7] |});
    (7, plainType "legacy" [])
  ];
  eventTypesById := {["$project" := 0]};
  currentDate := 100;
  eventCreate := λ _, None;
|}.

Definition projectPayload : Value :=
  VObject [("projectId", VString "p1"); ("extra", VNumber 3)].

(** The same surroundings with another index. *)
Definition withIndex (index : gmap string ref) (env : Env) : Env := {|
  objects := objects env;
  eventTypesById := index;
  currentDate := currentDate env;
  eventCreate := eventCreate env;
|}.

(** A payload for a user activity that lacks its [projectId]. *)
Definition userPayload : Value :=
  VObject [("userId", VString "u1"); ("extra", VNumber 3)].

(** The record of a project event from [start] to [end_]. *)
Definition projectRecord (start end_ : Date) (wide : bool) : EventRecord := {|
  systemEventTypeIds := ["$project"];
  data := projectPayload;
  isWide := wide;
  eventStartedAt := start;
  eventEndedAt := end_;
|}.

(** Two distinct objects with one identifier, the second the parent of the
    first. *)
Definition twinEnv : Env := {|
  objects := list_to_map [(0, plainType "$project" [1]);
                          (1, plainType "$project" [])];
  eventTypesById := {["$project" := 0]};
  currentDate := 100;
  eventCreate := λ _, None;
|}.

(** A sink that is down. *)
Definition downEnv : Env := {|
  objects := objects (testEnv 100);
  eventTypesById := eventTypesById (testEnv 100);
  currentDate := 100;
  eventCreate := λ _, Some "connection refused";
|}.

(** ** The keys of [SystemEventTypes] *)

(** [key.replace(/EventType$/, "")]: the pattern matches where what is left
    of the key is ["EventType"], and the match is removed. *)
Fixpoint stripEventTypeSuffix (key : string) : string :=
  if String.eqb key "EventType" then ""
  else
    match key with
    | "" => ""
    | String c rest => String c (stripEventTypeSuffix rest)
    end.

(** [Object.fromEntries(entries)], read by property: a later entry replaces
    an earlier one with the same key. *)
Definition Object_fromEntries {V} (entries : list (string * V))
    : gmap string V :=
  foldl (λ m kv, <[kv.1 := kv.2]> m) ∅ entries.

(** [stripEventTypeSuffixFromKeys(t)], for [t] given by [Object.entries(t)]. *)
Definition stripEventTypeSuffixFromKeys {V} (t : list (string * V))
    : gmap string V :=
  Object_fromEntries (map (λ kv, (stripEventTypeSuffix kv.1, kv.2)) t).

(** ** The script that writes the OpenAPI schemas

    The part of [main] that turns the path of a route file into the path of
    its endpoint and the path to import it from. *)

(** [s.slice(start, end)]: negative positions count from the end, and
    positions are clamped to the string. *)
Definition String_slice (s : string) (start : Z) (end_ : option Z) : string :=
  let len := Z.of_nat (String.length s) in
  let clamp i := if (i <? 0)%Z then Z.max (len + i) 0 else Z.min i len in
  let from := clamp start in
  let to := match end_ with Some e => clamp e | None => len end in
  String.substring (Z.to_nat from) (Z.to_nat (to - from)) s.

(** The last position at or after [i] where [pat] starts in the string of
    which [s] is the part from [i] on; [-1] when there is none. *)
Fixpoint lastIndexFrom (pat s : string) (i : Z) : Z :=
  match s with
  | "" => if String.prefix pat "" then i else (-1)%Z
  | String c s' =>
      let later := lastIndexFrom pat s' (i + 1) in
      if (0 <=? later)%Z then later
      else if String.prefix pat s then i else (-1)%Z
  end.

(** [s.lastIndexOf(pat)]. *)
Definition String_lastIndexOf (s pat : string) : Z := lastIndexFrom pat s 0.

(** [s] without its first [n] characters. *)
Fixpoint String_drop (n : nat) (s : string) : string :=
  match n, s with
  | O, _ => s
  | S n', String _ s' => String_drop n' s'
  | S _, "" => ""
  end.

(** [s.replace(pat, rep)] for a string [pat] and a replacement without [$]:
    the first occurrence of [pat] is replaced, and no other. *)
Fixpoint String_replace (s pat rep : string) : string :=
  if String.prefix pat s then rep +:+ String_drop (String.length pat) s
  else
    match s with
    | "" => ""
    | String c s' => String c (String_replace s' pat rep)
    end.

Definition filePathPrefix : string := "src/app/api/v1".
Definition importPathPrefix : string := "@/app/api/v1".

Record Endpoint := {
  importPath : string;
  urlPath : string;
}.

(** The body of the callback of [filePaths.map], up to [require]: the
    message of the [Error] it throws, or the two paths. *)
Definition endpointOf (filePath : string) : string + Endpoint :=
  if negb (String.prefix filePathPrefix filePath) then
    inl ("Invalid file path: " +:+ filePath)
  else
    let suffix :=
      String_slice filePath (Z.of_nat (String.length filePathPrefix)) None in
    let midfix :=
      String_slice suffix 0 (Some (String_lastIndexOf suffix "/route.")) in
    inr {| importPath := importPathPrefix +:+ suffix;
           urlPath := String_replace (String_replace midfix "[" "{") "]" "}" |}.

Import Stdlib.Strings.Ascii.

(** [s] does not contain the character [c]. *)
Fixpoint lacks (c : Ascii.ascii) (s : string) : bool :=
  match s with
  | "" => true
  | String c' s' => negb (Ascii.eqb c c') && lacks c s'
  end.

(** ** The server interface ([StackServerInterface])

    Every method sends its request through [sendClientRequest], which the
    class inherits from [StackClientInterface]. *)

(** A thrown error: the classes it is an instance of, its message and the
    error it was given as its cause. *)
Inductive JsError :=
| mkJsError (classes : list string) (message : string)
    (cause : option JsError).

(** [e instanceof cls]. *)
Definition instanceOf (e : JsError) (cls : string) : bool :=
  match e with
  | mkJsError classes _ _ => bool_decide (cls ∈ classes)
  end.

Definition newStackAssertionError (message : string)
    (cause : option JsError) : JsError :=
  mkJsError ["StackAssertionError"; "Error"] message cause.

Definition newError (message : string) : JsError :=
  mkJsError ["Error"] message None.

(** What reading a property of [null] or [undefined] throws. *)
Definition newTypeError (property : string) : JsError :=
  mkJsError ["TypeError"; "Error"]
    ("Cannot read properties of null or undefined: " +:+ property) None.

(** [!!v]. *)
Definition truthy (v : Value) : bool :=
  match v with
  | VUndefined | VNull => false
  | VBool b => b
  | VNumber n => negb (n =? 0)%Z
  | VString s => negb (String.eqb s "")
  | VObject _ => true
  end.

(** An [InternalSession], by its identity. *)
Definition InternalSession := nat.

(** The part of [ServerAuthApplicationOptions] that the class reads. *)
Inductive ServerAuth :=
| SecretServerKey (secretServerKey : string)
| ProjectOwnerSession (projectOwnerSession : InternalSession).

(** A [RequestInit] as the methods of the class write it: a method, an
    object of headers (empty when there is none) and the value whose JSON
    text is the body. *)
Record RequestInit := {
  reqMethod : option string;
  reqHeaders : gmap string string;
  reqBody : option Value;
}.

Inductive RequestType := Server | Admin.

(** The arguments of one call of [sendClientRequest]. *)
Record ClientCall := {
  callPath : string;
  callOptions : RequestInit;
  callSession : option InternalSession;
  callType : RequestType;
}.

(** A [Response], by what [response.json()] settles to. *)
Record Response := {
  json : JsError + Value;
}.

(** [Result.ok(data)] and [Result.error(error)]. *)
Inductive Result (A : Type) :=
| ResultOk (data : A)
| ResultError (error : JsError).
Arguments ResultOk {A} data.
Arguments ResultError {A} error.

(** An instance of the class: its options, and what [sendClientRequest]
    settles to for a call, given the calls made before it. *)
Record StackServerInterface := {
  serverOptions : ServerAuth;
  sendClientRequest : list ClientCall → ClientCall → JsError + Response;
}.

(** A computation of the class runs on the calls of [sendClientRequest] made
    so far, and returns or throws. *)
Definition Req (A : Type) : Type :=
  list ClientCall → (JsError + A) * list ClientCall.

#[export] Instance Req_ret : MRet Req := λ A a t, (inr a, t).

#[export] Instance Req_bind : MBind Req := λ A B k m t,
  match m t with
  | (inr a, t') => k a t'
  | (inl e, t') => (inl e, t')
  end.

Definition throwReq {A} (e : JsError) : Req A := λ t, (inl e, t).

(** [try { body } catch (e) { handler }]. *)
Definition tryCatch {A} (body : Req A) (handler : JsError → Req A) : Req A :=
  λ t,
  match body t with
  | (inl e, t') => handler e t'
  | (inr a, t') => (inr a, t')
  end.

(** The call that [sendServerRequest] makes: the options of the caller, with
    the headers [{ "x-stack-secret-server-key": ..., ...options.headers }]. *)
Definition serverCall (this : StackServerInterface) (path : string)
    (options : RequestInit) (session : option InternalSession)
    (requestType : RequestType) : ClientCall := {|
  callPath := path;
  callOptions := {|
    reqMethod := reqMethod options;
    reqHeaders :=
      reqHeaders options ∪
      {["x-stack-secret-server-key" :=
          match serverOptions this with
          | SecretServerKey secretServerKey => secretServerKey
          | ProjectOwnerSession _ => ""
          end]};
    reqBody := reqBody options;
  |};
  callSession := session;
  callType := requestType;
|}.

Definition sendServerRequest (this : StackServerInterface) (path : string)
    (options : RequestInit) (session : option InternalSession)
    (requestType : RequestType) : Req Response := λ t,
  let call := serverCall this path options session requestType in
  (sendClientRequest this t call, t ++ [call]).

(** The loop of the [catch] block of
    [sendServerRequestAndCatchKnownError]. *)
Fixpoint catchKnownError {A} (errorsToCatch : list string) (e : JsError)
    : Req (Result A) :=
  match errorsToCatch with
  | [] => throwReq e
  | errorType :: rest =>
      if instanceOf e errorType then mret (ResultError e)
      else catchKnownError rest e
  end.

Definition sendServerRequestAndCatchKnownError (this : StackServerInterface)
    (path : string) (requestOptions : RequestInit)
    (tokenStoreOrNull : option InternalSession)
    (errorsToCatch : list string) : Req (Result Response) :=
  tryCatch
    (response ← sendServerRequest this path requestOptions tokenStoreOrNull
                  Server;
     mret (ResultOk response))
    (catchKnownError errorsToCatch).

(** [await response.json()]. *)
Definition responseJson (response : Response) : Req Value := λ t,
  (json response, t).

(** [result.items]. *)
Definition getItems (result : Value) : Req Value :=
  match result with
  | VUndefined | VNull => throwReq (newTypeError "items")
  | _ => mret (getField "items" result)
  end.

(** The options [{}]. *)
Definition noOptions : RequestInit :=
  {| reqMethod := None; reqHeaders := ∅; reqBody := None |}.

(** The options with a method, a JSON content type and a body. *)
Definition jsonOptions (method : string) (body : Value) : RequestInit :=
  {| reqMethod := Some method;
     reqHeaders := {["content-type" := "application/json"]};
     reqBody := Some body |}.

(** A boolean in a template literal. *)
Definition booleanText (b : bool) : string := if b then "true" else "false".

Definition CannotGetOwnUserWithoutUser : string :=
  "CannotGetOwnUserWithoutUser".

Definition getServerUserByToken (this : StackServerInterface)
    (session : InternalSession) : Req Value :=
  responseOrError ←
    sendServerRequestAndCatchKnownError this "/users/me" noOptions
      (Some session) [CannotGetOwnUserWithoutUser];
  match responseOrError with
  | ResultError error =>
      if instanceOf error CannotGetOwnUserWithoutUser then mret VNull
      else throwReq (newStackAssertionError "Unexpected uncaught error"
                       (Some error))
  | ResultOk response =>
      user ← responseJson response;
      if negb (truthy user) then
        throwReq (newStackAssertionError
                    "User endpoint returned null; this should never happen"
                    None)
      else mret user
  end.

Definition getServerUserById (this : StackServerInterface) (userId : string)
    : Req (Result Value) :=
  response ← sendServerRequest this ("/users/" +:+ userId) noOptions None
               Server;
  user ← responseJson response;
  if negb (truthy user) then mret (ResultError (newError "Failed to get user"))
  else mret (ResultOk user).

Definition listServerCurrentUserTeamPermissions (this : StackServerInterface)
    (teamId : string) (recursive : bool) (session : InternalSession)
    : Req Value :=
  response ←
    sendServerRequest this
      ("/team-permissions?team_id=" +:+ teamId +:+ "&user_id=me&recursive="
       +:+ booleanText recursive)
      noOptions (Some session) Server;
  result ← responseJson response;
  getItems result.

Definition listServerCurrentUserTeams (this : StackServerInterface)
    (session : InternalSession) : Req Value :=
  response ← sendServerRequest this "/teams?user_id=me" noOptions
               (Some session) Server;
  result ← responseJson response;
  getItems result.

Definition listServerUsers (this : StackServerInterface) : Req Value :=
  response ← sendServerRequest this "/users" noOptions None Server;
  result ← responseJson response;
  getItems result.

Definition listServerTeams (this : StackServerInterface) : Req Value :=
  response ← sendServerRequest this "/teams" noOptions None Server;
  result ← responseJson response;
  getItems result.

Definition listServerTeamUsers (this : StackServerInterface)
    (teamId : string) : Req Value :=
  response ← sendServerRequest this ("/users?team_id=" +:+ teamId) noOptions
               None Server;
  result ← responseJson response;
  getItems result.

Definition createServerTeam (this : StackServerInterface) (data : Value)
    (session : option InternalSession) : Req Value :=
  response ← sendServerRequest this "/teams" (jsonOptions "POST" data)
               session Server;
  responseJson response.

Definition updateServerTeam (this : StackServerInterface) (teamId : string)
    (data : Value) : Req Value :=
  response ← sendServerRequest this ("/teams/" +:+ teamId)
               (jsonOptions "PATCH" data) None Server;
  responseJson response.

Definition deleteServerTeam (this : StackServerInterface) (teamId : string)
    : Req unit :=
  sendServerRequest this ("/teams/" +:+ teamId)
    {| reqMethod := Some "DELETE"; reqHeaders := ∅; reqBody := None |}
    None Server;;
  mret ().

Definition addServerUserToTeam (this : StackServerInterface)
    (userId teamId : string) : Req Value :=
  response ←
    sendServerRequest this
      ("/team-memberships/" +:+ teamId +:+ "/" +:+ userId)
      (jsonOptions "POST" (VObject [])) None Server;
  responseJson response.

Definition removeServerUserFromTeam (this : StackServerInterface)
    (userId teamId : string) : Req unit :=
  sendServerRequest this
    ("/team-memberships/" +:+ teamId +:+ "/" +:+ userId)
    (jsonOptions "DELETE" (VObject [])) None Server;;
  mret ().

Definition updateServerUser (this : StackServerInterface) (userId : string)
    (update : Value) : Req Value :=
  response ← sendServerRequest this ("/users/" +:+ userId)
               (jsonOptions "PATCH" update) None Server;
  responseJson response.

Definition listServerTeamMemberPermissions (this : StackServerInterface)
    (teamId userId : string) (recursive : bool) : Req Value :=
  response ←
    sendServerRequest this
      ("/team-permissions?team_id=" +:+ teamId +:+ "&user_id=" +:+ userId
       +:+ "&recursive=" +:+ booleanText recursive)
      noOptions None Server;
  result ← responseJson response;
  getItems result.

Definition grantServerTeamUserPermission (this : StackServerInterface)
    (teamId userId permissionId : string) : Req unit :=
  sendServerRequest this
    ("/team-permissions/" +:+ teamId +:+ "/" +:+ userId +:+ "/"
     +:+ permissionId)
    (jsonOptions "POST" (VObject [])) None Server;;
  mret ().

Definition revokeServerTeamUserPermission (this : StackServerInterface)
    (teamId userId permissionId : string) : Req unit :=
  sendServerRequest this
    ("/team-permissions/" +:+ teamId +:+ "/" +:+ userId +:+ "/"
     +:+ permissionId)
    (jsonOptions "DELETE" (VObject [])) None Server;;
  mret ().

Definition deleteServerServerUser (this : StackServerInterface)
    (userId : string) : Req unit :=
  sendServerRequest this ("/users/" +:+ userId)
    (jsonOptions "DELETE" (VObject [])) None Server;;
  mret ().

(** The public methods of the class, with their arguments. *)
Inductive ServerMethod :=
| GetServerUserByToken (session : InternalSession)
| GetServerUserById (userId : string)
| ListServerCurrentUserTeamPermissions (teamId : string) (recursive : bool)
    (session : InternalSession)
| ListServerCurrentUserTeams (session : InternalSession)
| ListServerUsers
| ListServerTeams
| ListServerTeamUsers (teamId : string)
| CreateServerTeam (data : Value) (session : option InternalSession)
| UpdateServerTeam (teamId : string) (data : Value)
| DeleteServerTeam (teamId : string)
| AddServerUserToTeam (userId teamId : string)
| RemoveServerUserFromTeam (userId teamId : string)
| UpdateServerUser (userId : string) (update : Value)
| ListServerTeamMemberPermissions (teamId userId : string) (recursive : bool)
| GrantServerTeamUserPermission (teamId userId permissionId : string)
| RevokeServerTeamUserPermission (teamId userId permissionId : string)
| DeleteServerServerUser (userId : string).

(** A call of a method, for what it does to the world: its result is
    dropped. *)
Definition invoke (this : StackServerInterface) (m : ServerMethod)
    : Req unit :=
  match m with
  | GetServerUserByToken session => getServerUserByToken this session;; mret ()
  | GetServerUserById userId => getServerUserById this userId;; mret ()
  | ListServerCurrentUserTeamPermissions teamId recursive session =>
      listServerCurrentUserTeamPermissions this teamId recursive session;;
      mret ()
  | ListServerCurrentUserTeams session =>
      listServerCurrentUserTeams this session;; mret ()
  | ListServerUsers => listServerUsers this;; mret ()
  | ListServerTeams => listServerTeams this;; mret ()
  | ListServerTeamUsers teamId => listServerTeamUsers this teamId;; mret ()
  | CreateServerTeam data session =>
      createServerTeam this data session;; mret ()
  | UpdateServerTeam teamId data => updateServerTeam this teamId data;; mret ()
  | DeleteServerTeam teamId => deleteServerTeam this teamId
  | AddServerUserToTeam userId teamId =>
      addServerUserToTeam this userId teamId;; mret ()
  | RemoveServerUserFromTeam userId teamId =>
      removeServerUserFromTeam this userId teamId
  | UpdateServerUser userId update =>
      updateServerUser this userId update;; mret ()
  | ListServerTeamMemberPermissions teamId userId recursive =>
      listServerTeamMemberPermissions this teamId userId recursive;; mret ()
  | GrantServerTeamUserPermission teamId userId permissionId =>
      grantServerTeamUserPermission this teamId userId permissionId
  | RevokeServerTeamUserPermission teamId userId permissionId =>
      revokeServerTeamUserPermission this teamId userId permissionId
  | DeleteServerServerUser userId => deleteServerServerUser this userId
  end.

(** A server that answers every call with the JSON value [body]. *)
Definition answering (key : string) (body : Value) : StackServerInterface := {|
  serverOptions := SecretServerKey key;
  sendClientRequest := λ _ _, inr {| json := inr body |};
|}.

(** A server that fails every call with [e]. *)
Definition failing (e : JsError) : StackServerInterface := {|
  serverOptions := ProjectOwnerSession 1;
  sendClientRequest := λ _ _, inl e;
|}.

(** The same surroundings at another time. *)
Definition withDate (now : Date) (env : Env) : Env := {|
  objects := objects env;
  eventTypesById := eventTypesById env;
  currentDate := now;
  eventCreate := eventCreate env;
|}.

(** The backend with, beside the system event types, an event type of the
    caller's own making that borrows the identifier of a registered one. *)
Definition borrowedEnv : Env := {|
  objects :=
    <[9 := plainType "$api-request" []]>
      (systemObjects ["GET"; "POST"] (λ _, true) (λ _, true));
  eventTypesById := systemEventTypesById ["GET"; "POST"] (λ _, true) (λ _, true);
  currentDate := 100;
  eventCreate := λ _, None;
|}.

(** A payload for an API request. *)
Definition apiRequestPayload : Value :=
  VObject [("projectId", VString "p1"); ("method", VString "GET");
           ("url", VString "https://example.com"); ("headers", VObject [])].

(** * Properties *)

(** ** The set *)

Lemma Set_has_true s r : Set_has s r = true ↔ r ∈ s.
Proof. unfold Set_has. apply bool_decide_eq_true. Qed.

Lemma Set_has_false s r : Set_has s r = false ↔ r ∉ s.
Proof. unfold Set_has. apply bool_decide_eq_false. Qed.

Lemma Set_add_fresh s r : r ∉ s → Set_add s r = s ++ [r].
Proof. intros H. unfold Set_add. by rewrite (proj2 (Set_has_false s r) H). Qed.

(** ** Reachability *)

Lemma reachable_mono objs roots roots' x :
  roots ⊆ roots' → reachable objs roots x → reachable objs roots' x.
Proof. intros Hsub (r & Hr & Hrx). exists r. split; [by apply Hsub | done]. Qed.

Lemma reachable_root objs roots r : r ∈ roots → reachable objs roots r.
Proof. intros Hr. by exists r. Qed.

Lemma reachable_parent objs r et x :
  objs !! r = Some et → reachable objs (inherits et) x → reachable objs [r] x.
Proof.
  intros Het (p & Hp & Hpx). exists r. split; [apply list_elem_of_singleton; done |].
  eapply rtc_l; [| exact Hpx]. by exists et.
Qed.

(** A set that holds the roots and the parents of its members holds all that
    is reachable from the roots. *)
Lemma reachable_closed objs roots (s : list ref) x :
  (∀ r, r ∈ roots → r ∈ s) →
  (∀ a b, a ∈ s → parentOf objs a b → b ∈ s) →
  reachable objs roots x → x ∈ s.
Proof.
  intros Hroots Hclosed (r & Hr & Hrx).
  assert (Hrs : r ∈ s) by auto. clear Hr.
  induction Hrx as [| a b c Hab _ IH]; [done |].
  apply IH. by eapply Hclosed.
Qed.

(** ** The traversal *)

Lemma extends_refl objs roots s : extends objs roots s s.
Proof.
  repeat split; [by exists []; rewrite app_nil_r | done | by left | done].
Qed.

Lemma extends_trans objs roots1 roots2 roots s1 s2 s3 :
  roots1 ⊆ roots → roots2 ⊆ roots →
  extends objs roots1 s1 s2 → extends objs roots2 s2 s3 →
  extends objs roots s1 s3.
Proof.
  intros Hr1 Hr2 ([n1 ->] & Hnd1 & Hs1 & Hc1) ([n2 ->] & Hnd2 & Hs2 & Hc2).
  repeat split.
  - exists (n1 ++ n2). by rewrite app_assoc.
  - auto.
  - intros x Hx. destruct (Hs2 x Hx) as [Hx2 | [Hx2 ?]].
    + destruct (Hs1 x Hx2) as [? | [Hx1 ?]]; [by left |].
      right. split; [exact (reachable_mono _ _ _ _ Hr1 Hx1) | done].
    + right. split; [exact (reachable_mono _ _ _ _ Hr2 Hx2) | done].
  - intros x Hx Hnx y Hxy.
    destruct (decide (x ∈ s1 ++ n1)) as [Hin | Hnin].
    + apply elem_of_app. left. by eapply Hc1.
    + by eapply Hc2.
Qed.

Lemma forEach_extends objs (f : ref → list ref → option (list ref)) xs :
  (∀ x s s', f x s = Some s' → extends objs [x] s s' ∧ x ∈ s') →
  ∀ s s', forEach f xs s = Some s' →
    extends objs xs s s' ∧ ∀ x, x ∈ xs → x ∈ s'.
Proof.
  intros Hf. induction xs as [| x xs IH]; intros s s' Hrun; simpl in Hrun.
  - injection Hrun as <-. split; [apply extends_refl | by intros x ?%elem_of_nil].
  - destruct (f x s) as [s1 |] eqn:Hfx; [| done].
    destruct (Hf _ _ _ Hfx) as [Hext1 Hx1].
    destruct (IH _ _ Hrun) as [Hext2 Hxs].
    split.
    + eapply extends_trans; [| | exact Hext1 | exact Hext2]; set_solver.
    + intros y [-> | Hy]%elem_of_cons; [| by auto].
      destruct Hext2 as ([n ->] & _). apply elem_of_app. by left.
Qed.

Lemma addEventType_extends objs fuel : ∀ r s s',
  addEventType fuel objs r s = Some s' → extends objs [r] s s' ∧ r ∈ s'.
Proof.
  induction fuel as [| fuel IH]; intros r s s' Hrun; simpl in Hrun; [done |].
  destruct (Set_has s r) eqn:Hhas.
  - injection Hrun as <-. apply Set_has_true in Hhas.
    split; [apply extends_refl | done].
  - apply Set_has_false in Hhas.
    destruct (objs !! r) as [et |] eqn:Het; [| done].
    rewrite (Set_add_fresh _ _ Hhas) in Hrun.
    destruct (forEach_extends objs _ _ (IH) _ _ Hrun)
      as [([n ->] & Hnd & Hsound & Hclosed) Hparents].
    assert (Hr : r ∈ (s ++ [r]) ++ n) by set_solver.
    split; [| done]. repeat split.
    + exists ([r] ++ n). by rewrite app_assoc.
    + intros Hs. apply Hnd. apply NoDup_app. repeat split; [done | | apply NoDup_singleton].
      intros x Hx ->%list_elem_of_singleton. done.
    + intros x Hx. destruct (Hsound x Hx) as [[? | ->%list_elem_of_singleton]%elem_of_app | [Hreach ?]].
      * by left.
      * right. split; [apply reachable_root; set_solver | by rewrite Het].
      * right. split; [by eapply reachable_parent | done].
    + intros x Hx Hnx y Hxy. destruct (decide (x = r)) as [-> | Hne].
      * destruct Hxy as (et' & Het' & Hy). rewrite Het in Het'.
        injection Het' as <-. by apply Hparents.
      * eapply Hclosed; [done | | done]. set_solver.
Qed.

(** The closure is free of repetitions, and holds exactly what is reachable
    from the requested types, all of it in the store. *)
Lemma resolveClosure_spec objs eventTypes closure :
  resolveClosure objs eventTypes = Some closure →
  NoDup closure ∧
  (∀ x, x ∈ closure ↔ reachable objs eventTypes x) ∧
  Forall (λ x, is_Some (objs !! x)) closure.
Proof.
  intros Hrun. unfold resolveClosure in Hrun.
  destruct (forEach_extends objs _ _ (addEventType_extends objs _) _ _ Hrun)
    as [(_ & Hnd & Hsound & Hclosed) Hroots].
  split; [apply Hnd, NoDup_nil_2 |]. split.
  - intros x. split.
    + intros Hx. destruct (Hsound x Hx) as [?%elem_of_nil | [? _]]; done.
    + apply reachable_closed; [done |].
      intros a b Ha. apply Hclosed; [done | apply not_elem_of_nil].
  - apply Forall_forall. intros x Hx.
    destruct (Hsound x Hx) as [?%elem_of_nil | [_ ?]]; done.
Qed.

(** ** Termination of the traversal *)

Lemma unvisited_app objs s n : unvisited objs (s ++ n) ≤ unvisited objs s.
Proof.
  unfold unvisited. apply subseteq_size. rewrite list_to_set_app_L.
  set_solver.
Qed.

Lemma unvisited_fresh objs s r :
  is_Some (objs !! r) → r ∉ s → unvisited objs (s ++ [r]) < unvisited objs s.
Proof.
  intros Hr Hnr. unfold unvisited. apply subset_size.
  rewrite list_to_set_app_L. apply elem_of_dom in Hr.
  assert (r ∉ (list_to_set s : gset ref)) by by rewrite elem_of_list_to_set.
  set_solver.
Qed.

Lemma unvisited_nil objs : unvisited objs [] ≤ size objs.
Proof.
  unfold unvisited. rewrite <- (size_dom (D := gset ref)).
  apply subseteq_size. set_solver.
Qed.

Lemma forEach_total objs (f : ref → list ref → option (list ref)) xs fuel :
  (∀ x s, x ∈ xs → unvisited objs s < fuel → is_Some (f x s)) →
  (∀ x s s', f x s = Some s' → ∃ n, s' = s ++ n) →
  ∀ s, unvisited objs s < fuel → is_Some (forEach f xs s).
Proof.
  intros Htotal Happ. induction xs as [| x xs IH]; intros s Hs; simpl; [done |].
  destruct (Htotal x s) as [s1 Hs1]; [by left | done |].
  rewrite Hs1. destruct (Happ _ _ _ Hs1) as [n ->].
  apply IH.
  - intros y s' Hy. apply Htotal. by right.
  - pose proof (unvisited_app objs s n). lia.
Qed.

(** On a closed store, a call with more fuel than there are objects left to
    visit returns. *)
Lemma addEventType_total objs :
  storeClosed objs →
  ∀ fuel r s, is_Some (objs !! r) → unvisited objs s < fuel →
    is_Some (addEventType fuel objs r s).
Proof.
  intros Hclosed. induction fuel as [| fuel IH]; intros r s Hr Hs; [lia |].
  simpl. destruct (Set_has s r) eqn:Hhas; [done |].
  apply Set_has_false in Hhas. destruct Hr as [et Het]. rewrite Het.
  rewrite (Set_add_fresh _ _ Hhas).
  apply (forEach_total objs _ _ fuel).
  - intros p s' Hp Hs'. apply IH; [| done].
    pose proof (Hclosed r et Het) as Hall. simpl in Hall.
    rewrite Forall_forall in Hall. by apply Hall.
  - intros x s1 s2 Hrun.
    by destruct (addEventType_extends _ _ _ _ _ Hrun) as [(? & _) _].
  - assert (unvisited objs (s ++ [r]) < unvisited objs s); [| lia].
    apply unvisited_fresh; [by rewrite Het | done].
Qed.

Lemma resolveClosure_total objs eventTypes :
  storeClosed objs →
  Forall (λ r, is_Some (objs !! r)) eventTypes →
  is_Some (resolveClosure objs eventTypes).
Proof.
  intros Hclosed Hreq. unfold resolveClosure.
  apply (forEach_total objs _ _ (S (size objs))).
  - intros x s Hx Hs. apply addEventType_total; [done | | done].
    rewrite Forall_forall in Hreq. by apply Hreq.
  - intros x s1 s2 Hrun.
    by destruct (addEventType_extends _ _ _ _ _ Hrun) as [(? & _) _].
  - pose proof (unvisited_nil objs). lia.
Qed.

Lemma forEach_ext (f g : ref → list ref → option (list ref)) xs :
  (∀ x s s', f x s = Some s' → g x s = Some s') →
  ∀ s s', forEach f xs s = Some s' → forEach g xs s = Some s'.
Proof.
  intros Hfg. induction xs as [| x xs IH]; intros s s' Hrun; simpl in *; [done |].
  destruct (f x s) as [s1 |] eqn:Hfx; [| done].
  rewrite (Hfg _ _ _ Hfx). by apply IH.
Qed.

(** More fuel does not change the answer. *)
Lemma addEventType_fuel objs fuel : ∀ fuel' r s s',
  fuel ≤ fuel' →
  addEventType fuel objs r s = Some s' → addEventType fuel' objs r s = Some s'.
Proof.
  induction fuel as [| fuel IH]; intros fuel' r s s' Hle Hrun; [done |].
  destruct fuel' as [| fuel']; [lia |]. simpl in *.
  destruct (Set_has s r); [done |].
  destruct (objs !! r) as [et |]; [| done].
  eapply forEach_ext; [| exact Hrun].
  intros x s1 s2. apply IH. lia.
Qed.

Lemma resolveClosure_fuel objs eventTypes closure fuel :
  resolveClosure objs eventTypes = Some closure →
  S (size objs) ≤ fuel →
  forEach (addEventType fuel objs) eventTypes [] = Some closure.
Proof.
  intros Hrun Hle. eapply forEach_ext; [| exact Hrun].
  intros x s s'. by apply addEventType_fuel.
Qed.

(** ** Running [logEvent] *)

Lemma bind_Ok {A B} (m : M A) (k : A → M B) t a t' :
  m t = (Ok a, t') → (m ≫= k) t = k a t'.
Proof. intros H. unfold mbind, M_bind. by rewrite H. Qed.

Lemma bind_Throw {A B} (m : M A) (k : A → M B) t e t' :
  m t = (Throw e, t') → (m ≫= k) t = (Throw e, t').
Proof. intros H. unfold mbind, M_bind. by rewrite H. Qed.

Lemma bind_Stuck {A B} (m : M A) (k : A → M B) t t' :
  m t = (Stuck, t') → (m ≫= k) t = (Stuck, t').
Proof. intros H. unfold mbind, M_bind. by rewrite H. Qed.

Lemma Map_has_spec (m : gmap string ref) k :
  Map_has m k = bool_decide (is_Some (m !! k)).
Proof.
  unfold Map_has. destruct (m !! k) eqn:Hk.
  - symmetry. by apply bool_decide_eq_true.
  - symmetry. apply bool_decide_eq_false. by intros [? ?].
Qed.

Lemma assertValid_run env r t :
  assertValid env r t =
  (if meetsPrecondition env r then Ok () else preconditionFailure env r, t).
Proof.
  unfold assertValid, meetsPrecondition, preconditionFailure, deref,
    liftOption, mbind, M_bind.
  destruct (objects env !! r) as [et |]; [| done].
  rewrite <- Map_has_spec.
  destruct (String.prefix "$" (id et)); [| done].
  by destruct (Map_has (eventTypesById env) (id et)).
Qed.

(** The precondition loop passes when every requested type meets the
    precondition, and otherwise fails at a type that does not; it makes no
    call. *)
Lemma precheck_run env rs t :
  (Forall (λ r, meetsPrecondition env r = true) rs ∧
   forOf rs (assertValid env) t = (Ok (), t)) ∨
  (∃ r, r ∈ rs ∧ meetsPrecondition env r = false ∧
        forOf rs (assertValid env) t = (preconditionFailure env r, t) ∧
        preconditionFailure env r ≠ Ok ()).
Proof.
  induction rs as [| r rs IH]; [by left |]. simpl.
  destruct (meetsPrecondition env r) eqn:Hr.
  - rewrite (bind_Ok _ _ t () t) by by rewrite assertValid_run, Hr.
    destruct IH as [[Hall Hrun] | (r' & Hin & Hr' & Hrun & Hne)].
    + left. split; [by constructor | done].
    + right. exists r'. split; [by right | done].
  - right. exists r. split; [by left |]. split; [done |].
    pose proof (assertValid_run env r t) as Hrun. rewrite Hr in Hrun.
    unfold preconditionFailure in *.
    destruct (objects env !! r) as [et |].
    + split; [by erewrite bind_Throw | done].
    + split; [by erewrite bind_Stuck | done].
Qed.

Lemma schemasOf_cons objs r et rs :
  objs !! r = Some et → schemasOf objs (r :: rs) = dataSchema et :: schemasOf objs rs.
Proof. intros H. unfold schemasOf. simpl. by rewrite H. Qed.

Lemma idsOf_cons objs r et rs :
  objs !! r = Some et → idsOf objs (r :: rs) = id et :: idsOf objs rs.
Proof. intros H. unfold idsOf. simpl. by rewrite H. Qed.

Lemma validateAll_cons env od ets r rest payload t et :
  objects env !! r = Some et →
  validateAll (objects env) od ets (r :: rest) payload t =
  match validate (dataSchema et) payload validateOptions with
  | Resolved payload' =>
      validateAll (objects env) od ets rest payload'
        (t ++ [CallValidate r payload validateOptions])
  | Rejected error =>
      (Throw (validationFailure et r payload error od ets),
       t ++ [CallValidate r payload validateOptions])
  end.
Proof.
  intros Het. simpl. unfold deref, liftOption, callValidate, mbind, M_bind.
  rewrite Het.
  destruct (validate (dataSchema et) payload validateOptions) as [v | []]; done.
Qed.

(** Past a prefix that accepts, the loop goes on with the output of the
    prefix. *)
Lemma validateAll_app env od ets pre : ∀ post payload d t,
  Forall (λ x, is_Some (objects env !! x)) pre →
  applySequentially validateOptions (schemasOf (objects env) pre) payload
    = Some d →
  validateAll (objects env) od ets (pre ++ post) payload t =
  validateAll (objects env) od ets post d (t ++ pipelineCalls (objects env) pre payload).
Proof.
  induction pre as [| r pre IH]; intros post payload d t Hin Hseq.
  - simpl in *. injection Hseq as <-. by rewrite app_nil_r.
  - apply Forall_cons in Hin as [[et Het] Hin].
    rewrite (schemasOf_cons _ _ _ _ Het) in Hseq. simpl in Hseq.
    rewrite <- app_comm_cons, (validateAll_cons _ _ _ _ _ _ _ _ Het).
    simpl pipelineCalls. rewrite Het. fold validateOptions in *.
    destruct (validate (dataSchema et) payload validateOptions) as [v |];
      [| done].
    rewrite (IH _ _ _ _ Hin Hseq). by rewrite <- app_assoc.
Qed.

Lemma validateAll_ok env od ets rs payload d t :
  Forall (λ x, is_Some (objects env !! x)) rs →
  applySequentially validateOptions (schemasOf (objects env) rs) payload
    = Some d →
  validateAll (objects env) od ets rs payload t =
  (Ok d, t ++ pipelineCalls (objects env) rs payload).
Proof.
  intros Hin Hseq.
  pose proof (validateAll_app env od ets rs [] payload d t Hin Hseq) as H.
  by rewrite app_nil_r in H.
Qed.

(** When some schema rejects, the loop throws, and what it throws is not an
    error of the sink. *)
Lemma validateAll_none env od ets rs : ∀ payload t,
  Forall (λ x, is_Some (objects env !! x)) rs →
  applySequentially validateOptions (schemasOf (objects env) rs) payload
    = None →
  ∃ e, validateAll (objects env) od ets rs payload t =
       (Throw e, t ++ pipelineCalls (objects env) rs payload) ∧
       ∀ m, e ≠ StorageError m.
Proof.
  induction rs as [| r rs IH]; intros payload t Hin Hseq; [done |].
  apply Forall_cons in Hin as [[et Het] Hin].
  rewrite (schemasOf_cons _ _ _ _ Het) in Hseq. simpl in Hseq.
  rewrite (validateAll_cons _ _ _ _ _ _ _ _ Het).
  simpl pipelineCalls. rewrite Het. fold validateOptions in *.
  destruct (validate (dataSchema et) payload validateOptions) as [v | error].
  - destruct (IH v (t ++ [CallValidate r payload validateOptions]) Hin Hseq)
      as (e & -> & He).
    exists e. split; [by rewrite <- app_assoc | done].
  - eexists. split; [done |]. by destruct error.
Qed.

Lemma mapM_ids env rs t :
  Forall (λ x, is_Some (objects env !! x)) rs →
  mapM (λ r, eventType ← deref (objects env) r; mret (id eventType)) rs t =
  (Ok (idsOf (objects env) rs), t).
Proof.
  induction rs as [| r rs IH]; intros Hin; [done |].
  apply Forall_cons in Hin as [[et Het] Hin].
  rewrite (idsOf_cons _ _ _ _ Het). simpl.
  unfold deref, liftOption, mbind, M_bind, mret, M_ret in *.
  rewrite Het. by rewrite (IH Hin).
Qed.

Lemma persisted_app c1 c2 : persisted (c1 ++ c2) = persisted c1 ++ persisted c2.
Proof. unfold persisted. apply omap_app. Qed.

Lemma validations_app c1 c2 :
  validations (c1 ++ c2) = validations c1 ++ validations c2.
Proof. unfold validations. apply omap_app. Qed.

Lemma persisted_pipelineCalls objs rs : ∀ payload,
  persisted (pipelineCalls objs rs payload) = [].
Proof.
  induction rs as [| r rs IH]; intros payload; simpl; [done |].
  destruct (objs !! r) as [et |]; [| done]. simpl.
  destruct (validate _ _ _); [apply IH | done].
Qed.

(** When every schema accepts, every event type of the list is validated, in
    the order of the list. *)
Lemma validations_pipelineCalls objs rs : ∀ payload d,
  Forall (λ x, is_Some (objs !! x)) rs →
  applySequentially validateOptions (schemasOf objs rs) payload = Some d →
  (validations (pipelineCalls objs rs payload)).*1 = rs.
Proof.
  induction rs as [| r rs IH]; intros payload d Hin Hseq; [done |].
  apply Forall_cons in Hin as [[et Het] Hin].
  rewrite (schemasOf_cons _ _ _ _ Het) in Hseq. simpl in *.
  rewrite Het. fold validateOptions in *. simpl.
  destruct (validate (dataSchema et) payload validateOptions) as [v |];
    [| done].
  f_equal. by eapply IH.
Qed.

Lemma logEvent_run env eventTypes payload options :
  LogEventRun env eventTypes payload options
    (run (logEvent env eventTypes payload options)).
Proof.
  unfold run, logEvent.
  destruct (timeRange (timeOrTimeRange env options)) as [range wide] eqn:Htime.
  destruct (precheck_run env eventTypes [])
    as [[Hall Hpre] | (r & Hin & Hr & Hpre & Hne)].
  - rewrite (bind_Ok _ _ _ _ _ Hpre).
    destruct (resolveClosure (objects env) eventTypes) as [closure |] eqn:Hcl.
    + rewrite (bind_Ok _ _ [] closure []) by done.
      destruct (resolveClosure_spec _ _ _ Hcl) as (_ & _ & Hstore).
      destruct (applySequentially validateOptions
                  (schemasOf (objects env) closure) payload) as [d |] eqn:Hseq.
      * rewrite (bind_Ok _ _ _ _ _
                   (validateAll_ok env payload eventTypes _ _ _ [] Hstore Hseq)).
        rewrite (bind_Ok _ _ _ _ _ (mapM_ids env closure _ Hstore)).
        unfold callCreate. simpl app.
        match goal with
        | |- LogEventRun _ _ _ _ (match eventCreate _ ?rec with _ => _ end, _) =>
            apply (run_created env eventTypes payload options closure d rec)
        end; try done.
        simpl. by destruct range.
      * destruct (validateAll_none env payload eventTypes _ payload [] Hstore Hseq)
          as (e & Hrun & He).
        rewrite (bind_Throw _ _ _ _ _ Hrun). simpl app.
        by apply (run_invalid env eventTypes payload options closure e).
    + rewrite (bind_Stuck _ _ [] []) by done. by apply run_stuck.
  - destruct (preconditionFailure env r) as [[] | e |] eqn:Hfail; [done | |].
    + rewrite (bind_Throw _ _ _ _ _ Hpre). rewrite <- Hfail.
      apply run_precondition; [done | done | by rewrite Hfail].
    + rewrite (bind_Stuck _ _ _ _ Hpre). rewrite <- Hfail.
      apply run_precondition; [done | done | by rewrite Hfail].
Qed.

(** On a closed store, [logEvent] is never stuck. *)
Lemma logEvent_not_stuck env eventTypes payload options :
  storeClosed (objects env) →
  Forall (λ r, is_Some (objects env !! r)) eventTypes →
  (run (logEvent env eventTypes payload options)).1 ≠ Stuck.
Proof.
  intros Hclosed Hreq.
  destruct (logEvent_run env eventTypes payload options)
    as [r Hin Hr Hne | Hall Hcl | closure e | closure d record]; simpl.
  - unfold preconditionFailure in *. rewrite Forall_forall in Hreq.
    destruct (Hreq r Hin) as [et Het]. by rewrite Het.
  - destruct (resolveClosure_total _ _ Hclosed Hreq) as [c Hc]. congruence.
  - done.
  - unfold sinkResult. by destruct (eventCreate env record).
Qed.

(** * The closure *)

Lemma store_size_two (objs : gmap ref EventType) a b :
  a ≠ b → is_Some (objs !! a) → is_Some (objs !! b) → 2 ≤ size objs.
Proof.
  intros Hab [ea Ha] Hb.
  pose proof (map_size_delete_Some a objs (mk_is_Some _ _ Ha)) as Hdel.
  assert (size (delete a objs) ≠ 0); [| lia].
  apply (map_size_ne_0_lookup_2 _ b). by rewrite lookup_delete_ne.
Qed.

(** C4. The closure never holds an event type twice and holds exactly the
    types reachable from the requested ones, and the traversal returns on
    every store closed under [inherits]; for a diamond (A inherits from
    B and C, which both inherit from D) the closure of [A] is A, B, D, C:
    the four types, D once. *)
Theorem closure_diamond_once (objs : gmap ref EventType) :
  (∀ eventTypes closure,
     resolveClosure objs eventTypes = Some closure →
     NoDup closure ∧ ∀ x, x ∈ closure ↔ reachable objs eventTypes x) ∧
  (∀ eventTypes,
     storeClosed objs →
     Forall (λ r, is_Some (objs !! r)) eventTypes →
     is_Some (resolveClosure objs eventTypes)) ∧
  (∀ a b c d etA etB etC etD,
     NoDup [a; b; c; d] →
     objs !! a = Some etA → inherits etA = [b; c] →
     objs !! b = Some etB → inherits etB = [d] →
     objs !! c = Some etC → inherits etC = [d] →
     objs !! d = Some etD → inherits etD = [] →
     resolveClosure objs [a] = Some [a; b; d; c]).
Proof.
  split; [| split].
  - intros eventTypes closure Hrun.
    by destruct (resolveClosure_spec _ _ _ Hrun) as (? & ? & _).
  - intros eventTypes. apply resolveClosure_total.
  - intros a b c d etA etB etC etD Hnd Ha HA Hb HB Hc HC Hd HD.
    assert (a ≠ b ∧ a ≠ c ∧ a ≠ d ∧ b ≠ c ∧ b ≠ d ∧ c ≠ d) as
      (Hab & Hac & Had & Hbc & Hbd & Hcd).
    { rewrite !NoDup_cons in Hnd. set_solver. }
    assert (Hrun : forEach (addEventType 3 objs) [a] [] = Some [a; b; d; c]).
    { cbn [forEach addEventType]. unfold Set_add, Set_has.
      rewrite bool_decide_eq_false_2 by set_solver. rewrite Ha, HA.
      cbn [forEach addEventType app]. unfold Set_add, Set_has.
      rewrite bool_decide_eq_false_2 by set_solver. rewrite Hb, HB.
      cbn [forEach addEventType app]. unfold Set_add, Set_has.
      rewrite bool_decide_eq_false_2 by set_solver. rewrite Hd, HD.
      cbn [forEach addEventType app].
      rewrite bool_decide_eq_false_2 by set_solver. rewrite Hc, HC.
      cbn [forEach addEventType app].
      rewrite bool_decide_eq_true_2 by set_solver. done. }
    unfold resolveClosure. eapply forEach_ext; [| exact Hrun].
    intros x s s'. apply addEventType_fuel.
    pose proof (store_size_two objs a b Hab (mk_is_Some _ _ Ha)
                  (mk_is_Some _ _ Hb)). lia.
Qed.

Lemma closure_diamond_once_witness :
  NoDup [10; 11; 12; 13] ∧
  resolveClosure diamondStore [10] = Some [10; 11; 13; 12].
Proof.
  assert (Hnd : NoDup [10; 11; 12; 13]).
  { apply (bool_decide_unpack _). vm_compute. exact I. }
  split; [exact Hnd |].
  apply (proj2 (proj2 (closure_diamond_once diamondStore)) 10 11 12 13
           (plainType "$A" [11; 12]) (plainType "$B" [13])
           (plainType "$C" [13]) (plainType "$D" []));
    first [exact Hnd | reflexivity].
Defined.

(** C5. The closure of a type holds the type, and is exactly what can be
    reached from it; the closure of its own [inherits] is exactly what can
    be reached from them, and all of it is in the closure of the type.
    With a type the closure holds all the parents of that type, so every
    ancestor of an ancestor of the type is in.  This needs no acyclicity;
    it holds on every store closed under [inherits], where both closures
    exist. *)
Theorem closure_contains_inherits_closure (objs : gmap ref EventType) T et :
  storeClosed objs →
  objs !! T = Some et →
  ∃ closureT closureP,
    resolveClosure objs [T] = Some closureT ∧
    resolveClosure objs (inherits et) = Some closureP ∧
    T ∈ closureT ∧
    (∀ x, x ∈ closureT ↔ reachable objs [T] x) ∧
    (∀ x, x ∈ closureP ↔ reachable objs (inherits et) x) ∧
    (∀ x, x ∈ closureP → x ∈ closureT) ∧
    (∀ x y, x ∈ closureT → parentOf objs x y → y ∈ closureT) ∧
    (∀ p a, p ∈ inherits et → rtc (parentOf objs) p a → a ∈ closureT).
Proof.
  intros Hclosed Het.
  destruct (resolveClosure_total objs [T] Hclosed) as [cT HcT].
  { constructor; [by rewrite Het | constructor]. }
  destruct (resolveClosure_total objs (inherits et) Hclosed) as [cP HcP].
  { exact (Hclosed T et Het). }
  exists cT, cP. split; [done |]. split; [done |].
  destruct (resolveClosure_spec _ _ _ HcT) as (_ & HT & _).
  destruct (resolveClosure_spec _ _ _ HcP) as (_ & HP & _).
  split; [| split; [| split; [| split; [| split]]]].
  - apply HT. apply reachable_root. by left.
  - exact HT.
  - exact HP.
  - intros x Hx. apply HT. eapply reachable_parent; [done |]. by apply HP.
  - intros x y Hx Hxy. apply HT. apply HT in Hx as (r & Hr & Hrx).
    exists r. split; [done |]. by eapply rtc_r.
  - intros p a Hp Hpa. apply HT. eapply reachable_parent; [done |].
    by exists p.
Qed.

Lemma closure_contains_inherits_closure_witness :
  storeClosed diamondStore ∧
  ∃ closureT closureP,
    resolveClosure diamondStore [10] = Some closureT ∧
    resolveClosure diamondStore [11; 12] = Some closureP ∧
    10 ∈ closureT ∧
    (∀ x, x ∈ closureT ↔ reachable diamondStore [10] x) ∧
    (∀ x, x ∈ closureP ↔ reachable diamondStore [11; 12] x) ∧
    (∀ x, x ∈ closureP → x ∈ closureT) ∧
    (∀ x y, x ∈ closureT → parentOf diamondStore x y → y ∈ closureT) ∧
    (∀ p a, p ∈ [11; 12] → rtc (parentOf diamondStore) p a → a ∈ closureT).
Proof.
  assert (Hclosed : storeClosed diamondStore).
  { apply (bool_decide_unpack _). vm_compute. exact I. }
  split; [exact Hclosed |].
  apply (closure_contains_inherits_closure diamondStore 10
           (plainType "$A" [11; 12]) Hclosed).
  reflexivity.
Defined.

(** * The orchestrator *)

Lemma precheck_passes env rs t :
  Forall (λ r, meetsPrecondition env r = true) rs →
  forOf rs (assertValid env) t = (Ok (), t).
Proof.
  intros Hall. destruct (precheck_run env rs t)
    as [[_ Hrun] | (r & Hin & Hr & _)]; [done |].
  rewrite Forall_forall in Hall. rewrite (Hall r Hin) in Hr. done.
Qed.

(** A record that reached the sink: how the call went. *)
Lemma logEvent_persisted env eventTypes payload options record :
  record ∈ persisted (run (logEvent env eventTypes payload options)).2 →
  ∃ closure,
    Forall (λ r, meetsPrecondition env r = true) eventTypes ∧
    resolveClosure (objects env) eventTypes = Some closure ∧
    applySequentially {| strict := true; stripUnknown := false |}
      (schemasOf (objects env) closure) payload = Some (data record) ∧
    systemEventTypeIds record = idsOf (objects env) closure ∧
    ((eventStartedAt record, eventEndedAt record), isWide record)
      = timeRange (timeOrTimeRange env options) ∧
    run (logEvent env eventTypes payload options) =
      (sinkResult env record,
       pipelineCalls (objects env) closure payload ++ [CallCreate record]).
Proof.
  destruct (logEvent_run env eventTypes payload options)
    as [r Hin Hr Hne | Hall Hcl | closure e Hall Hcl Hseq He
        | closure d record' Hall Hcl Hseq Hids Hdata Htime]; simpl.
  - by intros ?%elem_of_nil.
  - by intros ?%elem_of_nil.
  - rewrite persisted_pipelineCalls. by intros ?%elem_of_nil.
  - rewrite persisted_app, persisted_pipelineCalls. simpl.
    intros ->%list_elem_of_singleton. exists closure. by subst d.
Qed.

(** A request that passes the precondition, on a closure whose schemas all
    accept: the call reaches the sink. *)
Lemma logEvent_created env eventTypes payload options closure d :
  Forall (λ r, meetsPrecondition env r = true) eventTypes →
  resolveClosure (objects env) eventTypes = Some closure →
  applySequentially {| strict := true; stripUnknown := false |}
    (schemasOf (objects env) closure) payload = Some d →
  ∃ record,
    data record = d ∧
    systemEventTypeIds record = idsOf (objects env) closure ∧
    run (logEvent env eventTypes payload options) =
      (sinkResult env record,
       pipelineCalls (objects env) closure payload ++ [CallCreate record]).
Proof.
  intros Hall Hcl Hseq.
  destruct (logEvent_run env eventTypes payload options)
    as [r Hin Hr Hne | Hall' Hcl' | closure' e Hall' Hcl' Hseq' He
        | closure' d' record Hall' Hcl' Hseq' Hids Hdata Htime].
  - rewrite Forall_forall in Hall. rewrite (Hall r Hin) in Hr. done.
  - congruence.
  - congruence.
  - assert (closure' = closure) as -> by congruence.
    exists record. split; [congruence | done].
Qed.

(** A call that returns has handed one record to the sink. *)
Lemma logEvent_returns env eventTypes payload options :
  (run (logEvent env eventTypes payload options)).1 = Ok () →
  ∃ record,
    persisted (run (logEvent env eventTypes payload options)).2 = [record].
Proof.
  destruct (logEvent_run env eventTypes payload options)
    as [r Hin Hr Hne | Hall Hcl | closure e Hall Hcl Hseq He
        | closure d record Hall Hcl Hseq Hids Hdata Htime]; simpl; try done.
  intros _. exists record. by rewrite persisted_app, persisted_pipelineCalls.
Qed.

(** C2. When a requested type has an identifier outside the system namespace
    or absent from the index, the call throws at the precondition, having
    made no call at all: no schema has validated anything and the sink has
    seen nothing, whatever the other requested types are. *)
Theorem logEvent_rejects_invalid_request env eventTypes payload options r et :
  Forall (λ x, is_Some (objects env !! x)) eventTypes →
  r ∈ eventTypes →
  objects env !! r = Some et →
  String.prefix "$" (id et) = false ∨ eventTypesById env !! id et = None →
  ∃ message r',
    r' ∈ eventTypes ∧
    run (logEvent env eventTypes payload options) =
      (Throw (StackAssertionError message (ExtraEventType r') None), []).
Proof.
  intros Hstore Hin Het Hbad.
  assert (Hr : meetsPrecondition env r = false).
  { unfold meetsPrecondition. rewrite Het. destruct Hbad as [-> | Hnone]; [done |].
    rewrite Hnone. apply andb_false_iff. right.
    apply bool_decide_eq_false. by intros [? ?]. }
  destruct (logEvent_run env eventTypes payload options)
    as [r' Hin' Hr' Hne | Hall _ | closure e Hall _ _ _
        | closure d record Hall _ _ _ _ _].
  - unfold preconditionFailure. rewrite Forall_forall in Hstore.
    destruct (Hstore r' Hin') as [et' ->]. by eexists _, r'.
  - rewrite Forall_forall in Hall. rewrite (Hall r Hin) in Hr. done.
  - rewrite Forall_forall in Hall. rewrite (Hall r Hin) in Hr. done.
  - rewrite Forall_forall in Hall. rewrite (Hall r Hin) in Hr. done.
Qed.

(** C3. With an explicit [{start, end}] pair a call that returns has handed
    a record to the sink, and the record that reaches the sink starts at
    [start], ends at [end] and is wide, also when the two are equal. *)
Theorem logEvent_explicit_range_is_wide env eventTypes payload options
    start end_ record :
  time options = Some (TimeRange start end_) →
  ((run (logEvent env eventTypes payload options)).1 = Ok () →
   ∃ record',
     persisted (run (logEvent env eventTypes payload options)).2 = [record']) ∧
  (record ∈ persisted (run (logEvent env eventTypes payload options)).2 →
   eventStartedAt record = start ∧
   eventEndedAt record = end_ ∧
   isWide record = true).
Proof.
  intros Htime. split; [apply logEvent_returns |]. intros Hrec.
  destruct (logEvent_persisted _ _ _ _ _ Hrec) as (_ & _ & _ & _ & _ & Hrange & _).
  unfold timeOrTimeRange in Hrange. rewrite Htime in Hrange. simpl in Hrange.
  by injection Hrange as -> -> ->.
Qed.

(** C8. A call that returns has handed a record to the sink.  Without a
    [time] option the record starts and ends at the current date and is not
    wide; with a single [Date] it starts and ends at that date and is not
    wide. *)
Theorem logEvent_instant_is_not_wide env eventTypes payload options record :
  record ∈ persisted (run (logEvent env eventTypes payload options)).2 →
  ((run (logEvent env eventTypes payload options)).1 = Ok () →
   ∃ record',
     persisted (run (logEvent env eventTypes payload options)).2 = [record']) ∧
  (time options = None →
     eventStartedAt record = currentDate env ∧
     eventEndedAt record = currentDate env ∧
     isWide record = false) ∧
  (∀ d, time options = Some (TimeDate d) →
     eventStartedAt record = d ∧
     eventEndedAt record = d ∧
     isWide record = false).
Proof.
  intros Hrec. split; [apply logEvent_returns |].
  destruct (logEvent_persisted _ _ _ _ _ Hrec) as (_ & _ & _ & _ & _ & Hrange & _).
  unfold timeOrTimeRange in Hrange. split.
  - intros Htime. rewrite Htime in Hrange. simpl in Hrange.
    by injection Hrange as -> -> ->.
  - intros d Htime. rewrite Htime in Hrange. simpl in Hrange.
    by injection Hrange as -> -> ->.
Qed.

(** C9. With no requested type, nothing is checked and nothing is validated:
    the only call is to the sink, with no identifier and the payload as it
    was given, and the call returns unless the sink itself rejects. *)
Theorem logEvent_no_types env payload options :
  ∃ record,
    run (logEvent env [] payload options) =
      (match eventCreate env record with
       | None => Ok ()
       | Some message => Throw (StorageError message)
       end, [CallCreate record]) ∧
    systemEventTypeIds record = [] ∧
    data record = payload.
Proof.
  unfold run, logEvent.
  destruct (timeRange (timeOrTimeRange env options)) as [range wide].
  eexists. split; [reflexivity |]. done.
Qed.

(** ** The pipeline *)

Lemma schemasOf_app objs l1 l2 :
  schemasOf objs (l1 ++ l2) = schemasOf objs l1 ++ schemasOf objs l2.
Proof. unfold schemasOf. apply omap_app. Qed.

Lemma schemasOf_elem objs rs r et :
  r ∈ rs → objs !! r = Some et → dataSchema et ∈ schemasOf objs rs.
Proof.
  intros Hr Het. unfold schemasOf. apply list_elem_of_omap.
  exists r. split; [done |]. by rewrite Het.
Qed.

Lemma idsOf_elem objs rs r et :
  r ∈ rs → objs !! r = Some et → id et ∈ idsOf objs rs.
Proof.
  intros Hr Het. unfold idsOf. apply list_elem_of_omap.
  exists r. split; [done |]. by rewrite Het.
Qed.

Lemma applySequentially_keeps options schemas :
  stripUnknown options = false →
  Forall keepsUnknown schemas →
  ∀ v d, applySequentially options schemas v = Some d →
  ∀ k, (∀ s, s ∈ schemas → k ∉ fields s) → getField k d = getField k v.
Proof.
  intros Hopt Hkeep. induction Hkeep as [| s schemas Hs _ IH];
    intros v d Hseq k Hk; simpl in Hseq.
  - by injection Hseq as <-.
  - destruct (validate s v options) as [v' |] eqn:Hv; [| done].
    rewrite (IH _ _ Hseq k) by (intros s' Hs'; apply Hk; by right).
    eapply Hs; [done | done |]. apply Hk. by left.
Qed.

Lemma pipelineCalls_app objs pre : ∀ post payload v,
  Forall (λ x, is_Some (objs !! x)) pre →
  applySequentially validateOptions (schemasOf objs pre) payload = Some v →
  pipelineCalls objs (pre ++ post) payload =
  pipelineCalls objs pre payload ++ pipelineCalls objs post v.
Proof.
  induction pre as [| r pre IH]; intros post payload v Hin Hseq.
  - simpl in *. by injection Hseq as <-.
  - apply Forall_cons in Hin as [[et Het] Hin].
    rewrite (schemasOf_cons _ _ _ _ Het) in Hseq. simpl in *.
    rewrite Het. fold validateOptions in *.
    destruct (validate (dataSchema et) payload validateOptions) as [v1 |];
      [| done].
    by rewrite (IH _ _ _ Hin Hseq).
Qed.

(** Each event type past a prefix that accepts is validated on the output of
    that prefix. *)
Lemma pipelineCalls_in objs pre r post payload v :
  Forall (λ x, is_Some (objs !! x)) (pre ++ r :: post) →
  applySequentially validateOptions (schemasOf objs pre) payload = Some v →
  CallValidate r v validateOptions ∈ pipelineCalls objs (pre ++ r :: post) payload.
Proof.
  intros [Hpre [[et Het] _]%Forall_cons]%Forall_app Hseq.
  rewrite (pipelineCalls_app _ _ _ _ _ Hpre Hseq).
  apply elem_of_app. right. simpl. rewrite Het. by left.
Qed.

(** Nothing else is validated. *)
Lemma pipelineCalls_inv objs rs : ∀ payload r v o,
  CallValidate r v o ∈ pipelineCalls objs rs payload →
  o = validateOptions ∧
  ∃ pre post, rs = pre ++ r :: post ∧
    applySequentially validateOptions (schemasOf objs pre) payload = Some v.
Proof.
  induction rs as [| r0 rs IH]; intros payload r v o Hin; simpl in Hin.
  - by apply elem_of_nil in Hin.
  - destruct (objs !! r0) as [et |] eqn:Het; [| by apply elem_of_nil in Hin].
    fold validateOptions in Hin.
    apply elem_of_cons in Hin as [[= -> -> ->] | Hin].
    + split; [done |]. by exists [], rs.
    + destruct (validate (dataSchema et) payload validateOptions) as [v1 |]
        eqn:Hv; [| by apply elem_of_nil in Hin].
      destruct (IH _ _ _ _ Hin) as (-> & pre & post & -> & Hseq).
      split; [done |]. exists (r0 :: pre), post. split; [done |].
      rewrite (schemasOf_cons _ _ _ _ Het). simpl. by rewrite Hv.
Qed.

(** C1. On a request that passes the precondition, the payload that reaches
    the sink is the result of applying the schemas of the closure one after
    the other, in the order of the closure, each with [strict: true] and
    [stripUnknown: false] and each on the output of the one before; nothing
    reaches the sink when one of them rejects.  The validations run are
    exactly these.  With schemas that keep undeclared properties under
    [stripUnknown: false], a property that a schema does not declare is the
    same after that schema as before it, and a property that no schema of the
    closure declares reaches the sink as the caller gave it. *)
Theorem logEvent_applies_schemas_in_sequence env eventTypes payload options
    closure :
  Forall (λ r, meetsPrecondition env r = true) eventTypes →
  resolveClosure (objects env) eventTypes = Some closure →
  data <$> persisted (run (logEvent env eventTypes payload options)).2
    = option_list
        (applySequentially {| strict := true; stripUnknown := false |}
           (schemasOf (objects env) closure) payload) ∧
  (∀ r v o,
     CallValidate r v o ∈ (run (logEvent env eventTypes payload options)).2 ↔
     o = {| strict := true; stripUnknown := false |} ∧
     ∃ pre post, closure = pre ++ r :: post ∧
       applySequentially {| strict := true; stripUnknown := false |}
         (schemasOf (objects env) pre) payload = Some v) ∧
  (Forall keepsUnknown (schemasOf (objects env) closure) →
   (∀ pre r post v v' et k,
      closure = pre ++ r :: post →
      applySequentially {| strict := true; stripUnknown := false |}
        (schemasOf (objects env) pre) payload = Some v →
      objects env !! r = Some et →
      validate (dataSchema et) v {| strict := true; stripUnknown := false |}
        = Resolved v' →
      k ∉ fields (dataSchema et) →
      getField k v' = getField k v) ∧
   (∀ record k,
      record ∈ persisted (run (logEvent env eventTypes payload options)).2 →
      (∀ s, s ∈ schemasOf (objects env) closure → k ∉ fields s) →
      getField k (data record) = getField k payload)).
Proof.
  intros Hall Hcl.
  destruct (resolveClosure_spec _ _ _ Hcl) as (_ & _ & Hstore).
  assert (Hcalls : ∃ tail,
    (run (logEvent env eventTypes payload options)).2 =
      pipelineCalls (objects env) closure payload ++ tail ∧
    ∀ r v o, CallValidate r v o ∉ tail).
  { destruct (applySequentially validateOptions
                (schemasOf (objects env) closure) payload) as [d |] eqn:Hseq.
    - destruct (logEvent_created _ _ payload options _ _ Hall Hcl Hseq)
        as (record & _ & _ & ->).
      eexists. split; [done |]. intros r v o [[=] | []%elem_of_nil]%elem_of_cons.
    - destruct (logEvent_run env eventTypes payload options)
        as [r Hin Hr Hne | Hall' Hcl' | closure' e Hall' Hcl' Hseq' He
            | closure' d' record Hall' Hcl' Hseq' Hids Hdata Htime].
      + rewrite Forall_forall in Hall. rewrite (Hall r Hin) in Hr. done.
      + congruence.
      + assert (closure' = closure) as -> by congruence.
        exists []. split; [by rewrite app_nil_r | intros; apply not_elem_of_nil].
      + assert (closure' = closure) as -> by congruence.
        unfold validateOptions in Hseq. congruence. }
  split; [| split].
  - destruct (applySequentially _ (schemasOf (objects env) closure) payload)
      as [d |] eqn:Hseq.
    + destruct (logEvent_created _ _ payload options _ _ Hall Hcl Hseq)
        as (record & <- & _ & ->). simpl.
      by rewrite persisted_app, persisted_pipelineCalls.
    + destruct (logEvent_run env eventTypes payload options)
        as [r Hin Hr Hne | Hall' Hcl' | closure' e Hall' Hcl' Hseq' He
            | closure' d' record Hall' Hcl' Hseq' Hids Hdata Htime]; simpl.
      * done.
      * done.
      * by rewrite persisted_pipelineCalls.
      * assert (closure' = closure) as -> by congruence. congruence.
  - destruct Hcalls as (tail & -> & Htail). intros r v o. split.
    + intros [Hin | Hin]%elem_of_app; [| by apply Htail in Hin].
      by apply pipelineCalls_inv in Hin.
    + intros (-> & pre & post & -> & Hseq). apply elem_of_app. left.
      by apply pipelineCalls_in.
  - intros Hkeep. split.
    + intros pre r post v v' et k -> Hseq Het Hv Hk.
      rewrite Forall_forall in Hkeep.
      eapply (Hkeep (dataSchema et)); [| | exact Hv | exact Hk].
      * eapply schemasOf_elem; [| done]. apply elem_of_app. right. by left.
      * done.
    + intros record k Hrec Hk.
      destruct (logEvent_persisted _ _ _ _ _ Hrec)
        as (closure' & _ & Hcl' & Hseq & _).
      assert (closure' = closure) as -> by congruence.
      exact (applySequentially_keeps {| strict := true; stripUnknown := false |}
               _ eq_refl Hkeep _ _ Hseq k Hk).
Qed.

(** C6. When the schema of an event type of the closure rejects, after the
    schemas before it have accepted, the call throws there: no later schema
    is applied and the sink sees nothing.  For a [yup.ValidationError] it
    throws a [StackAssertionError] that carries the event type, the payload
    as it was when the schema rejected it, the error of the schema, the
    payload as the caller gave it and the event types as the caller
    requested them; any other error is thrown again as it is. *)
Theorem logEvent_validation_failure env eventTypes payload options closure
    pre r post et v error :
  Forall (λ x, meetsPrecondition env x = true) eventTypes →
  resolveClosure (objects env) eventTypes = Some closure →
  closure = pre ++ r :: post →
  applySequentially {| strict := true; stripUnknown := false |}
    (schemasOf (objects env) pre) payload = Some v →
  objects env !! r = Some et →
  validate (dataSchema et) v {| strict := true; stripUnknown := false |}
    = Rejected error →
  ∃ calls,
    run (logEvent env eventTypes payload options) =
      (Throw
         match error with
         | ValidationError _ =>
             StackAssertionError
               ("Invalid event data for event type: " +:+ id et)
               (ExtraInvalidData r v error payload eventTypes)
               (Some error)
         | OtherError _ => Rethrown error
         end, calls) ∧
    (validations calls).*1 = pre ++ [r] ∧
    last (validations calls) = Some (r, v) ∧
    (∀ x, x ∈ post → x ∉ (validations calls).*1) ∧
    persisted calls = [].
Proof.
  intros Hall Hcl -> Hseq Het Hv.
  destruct (resolveClosure_spec _ _ _ Hcl) as (Hnd & _ & Hstore).
  apply Forall_app in Hstore as [Hpre _].
  exists (pipelineCalls (objects env) pre payload
          ++ [CallValidate r v validateOptions]).
  split; [| split; [| split; [| split]]].
  - unfold run, logEvent.
    destruct (timeRange (timeOrTimeRange env options)) as [range wide].
    rewrite (bind_Ok _ _ _ _ _ (precheck_passes env eventTypes [] Hall)).
    rewrite (bind_Ok _ _ [] (pre ++ r :: post) [])
      by (unfold liftOption; by rewrite Hcl).
    erewrite bind_Throw; [reflexivity |].
    rewrite (validateAll_app _ _ _ _ _ _ _ _ Hpre Hseq).
    rewrite (validateAll_cons _ _ _ _ _ _ _ _ Het).
    unfold validateOptions at 1. rewrite Hv. by destruct error.
  - rewrite validations_app, fmap_app. simpl.
    by rewrite (validations_pipelineCalls _ _ _ _ Hpre Hseq).
  - rewrite validations_app. simpl. by rewrite last_snoc.
  - intros x Hx. rewrite validations_app, fmap_app. simpl.
    rewrite (validations_pipelineCalls _ _ _ _ Hpre Hseq).
    apply NoDup_app in Hnd as (_ & Hdisj & [Hr _]%NoDup_cons).
    intros [Hin | ->%list_elem_of_singleton]%elem_of_app; [| done].
    apply (Hdisj x Hin). by right.
  - rewrite persisted_app, persisted_pipelineCalls. done.
Qed.

(** C7. The sink is called at most once.  When it is called, every requested
    type has passed the precondition, every schema of the closure has
    accepted, and the call to the sink is the last call, after the
    validation of the whole closure.  When [logEvent] throws anything but
    the error of the sink, the sink has not been called. *)
Theorem logEvent_sink_last_and_once env eventTypes payload options :
  length (persisted (run (logEvent env eventTypes payload options)).2) ≤ 1 ∧
  (∀ record,
     record ∈ persisted (run (logEvent env eventTypes payload options)).2 →
     Forall (λ r, meetsPrecondition env r = true) eventTypes ∧
     ∃ closure,
       resolveClosure (objects env) eventTypes = Some closure ∧
       applySequentially {| strict := true; stripUnknown := false |}
         (schemasOf (objects env) closure) payload = Some (data record) ∧
       (run (logEvent env eventTypes payload options)).2 =
         pipelineCalls (objects env) closure payload ++ [CallCreate record] ∧
       (validations (run (logEvent env eventTypes payload options)).2).*1
         = closure) ∧
  (∀ e,
     (run (logEvent env eventTypes payload options)).1 = Throw e →
     (∀ message, e ≠ StorageError message) →
     persisted (run (logEvent env eventTypes payload options)).2 = []).
Proof.
  split; [| split].
  - destruct (logEvent_run env eventTypes payload options)
      as [r Hin Hr Hne | Hall Hcl | closure e Hall Hcl Hseq He
          | closure d record Hall Hcl Hseq Hids Hdata Htime]; simpl.
    + lia.
    + lia.
    + rewrite persisted_pipelineCalls. simpl. lia.
    + rewrite persisted_app, persisted_pipelineCalls. simpl. lia.
  - intros record Hrec.
    destruct (logEvent_persisted _ _ _ _ _ Hrec)
      as (closure & Hall & Hcl & Hseq & _ & _ & Hrun).
    split; [done |]. exists closure. rewrite Hrun. simpl.
    split; [done |]. split; [done |]. split; [done |].
    destruct (resolveClosure_spec _ _ _ Hcl) as (_ & _ & Hstore).
    rewrite validations_app, fmap_app. simpl. rewrite app_nil_r.
    by eapply validations_pipelineCalls.
  - destruct (logEvent_run env eventTypes payload options)
      as [r Hin Hr Hne | Hall Hcl | closure e' Hall Hcl Hseq He
          | closure d record Hall Hcl Hseq Hids Hdata Htime]; simpl.
    + done.
    + done.
    + intros. apply persisted_pipelineCalls.
    + unfold sinkResult. intros e He Hne.
      destruct (eventCreate env record) as [message |]; [| done].
      injection He as <-. by destruct (Hne message).
Qed.

(** ** The index *)

Lemma forOf_ext {A} (f g : A → M unit) xs :
  (∀ x t, x ∈ xs → f x t = g x t) → ∀ t, forOf xs f t = forOf xs g t.
Proof.
  intros Hfg. induction xs as [| x xs IH]; intros t; [done |].
  simpl. unfold mbind, M_bind. rewrite (Hfg x t) by by left.
  destruct (g x t) as [[[] | e |] t']; [| done | done].
  apply IH. intros y t'' Hy. apply Hfg. by right.
Qed.

Lemma logEvent_calls_pipeline env eventTypes payload options closure :
  Forall (λ r, meetsPrecondition env r = true) eventTypes →
  resolveClosure (objects env) eventTypes = Some closure →
  ∃ tail,
    (run (logEvent env eventTypes payload options)).2 =
      pipelineCalls (objects env) closure payload ++ tail.
Proof.
  intros Hall Hcl.
  destruct (logEvent_run env eventTypes payload options)
    as [r Hin Hr Hne | Hall' Hcl' | closure' e Hall' Hcl' Hseq' He
        | closure' d' record Hall' Hcl' Hseq' Hids Hdata Htime].
  - rewrite Forall_forall in Hall. rewrite (Hall r Hin) in Hr. done.
  - congruence.
  - assert (closure' = closure) as -> by congruence.
    exists []. by rewrite app_nil_r.
  - assert (closure' = closure) as -> by congruence. by eexists.
Qed.

(** C10. The index is read only at the identifiers of the requested types:
    another index that agrees with it there gives the same run.  The
    traversal and the pipeline follow [inherits] in the store.  Once the
    requested types have passed the precondition, every type reachable from
    them is in the closure, whatever its identifier is and whether the
    index has it or not; its schema is applied as soon as the schemas
    before it have accepted, also when it then rejects; and when all the
    schemas accept, one record reaches the sink, with the identifier of
    every reachable type. *)
Theorem logEvent_index_only_for_requested env index' eventTypes payload
    options :
  (∀ r et, r ∈ eventTypes → objects env !! r = Some et →
     (is_Some (eventTypesById env !! id et) ↔ is_Some (index' !! id et))) →
  run (logEvent (withIndex index' env) eventTypes payload options)
    = run (logEvent env eventTypes payload options) ∧
  (∀ closure,
     Forall (λ r, meetsPrecondition env r = true) eventTypes →
     resolveClosure (objects env) eventTypes = Some closure →
     (∀ x, reachable (objects env) eventTypes x → x ∈ closure) ∧
     (∀ pre x post v,
        closure = pre ++ x :: post →
        applySequentially {| strict := true; stripUnknown := false |}
          (schemasOf (objects env) pre) payload = Some v →
        CallValidate x v {| strict := true; stripUnknown := false |} ∈
          (run (logEvent env eventTypes payload options)).2) ∧
     (∀ d,
        applySequentially {| strict := true; stripUnknown := false |}
          (schemasOf (objects env) closure) payload = Some d →
        ∃ record,
          persisted (run (logEvent env eventTypes payload options)).2
            = [record] ∧
          data record = d ∧
          ∀ x et,
            reachable (objects env) eventTypes x →
            objects env !! x = Some et →
            id et ∈ systemEventTypeIds record ∧
            x ∈ (validations
                   (run (logEvent env eventTypes payload options)).2).*1)) ∧
  (∀ record x et,
     record ∈ persisted (run (logEvent env eventTypes payload options)).2 →
     reachable (objects env) eventTypes x →
     objects env !! x = Some et →
     id et ∈ systemEventTypeIds record ∧
     x ∈ (validations (run (logEvent env eventTypes payload options)).2).*1).
Proof.
  intros Hagree. split; [| split].
  - unfold run, logEvent. simpl.
    destruct (timeRange (timeOrTimeRange env options)) as [range wide] eqn:Ht.
    unfold timeOrTimeRange in *. simpl. rewrite Ht.
    unfold mbind at 1 3. unfold M_bind at 1 3.
    rewrite (forOf_ext (assertValid (withIndex index' env)) (assertValid env));
      [done |].
    intros r t Hr. rewrite !assertValid_run.
    unfold meetsPrecondition, preconditionFailure. simpl.
    destruct (objects env !! r) as [et |] eqn:Het; [| done].
    rewrite (bool_decide_ext _ _ (Hagree r et Hr Het)). done.
  - intros closure Hall Hcl.
    destruct (resolveClosure_spec _ _ _ Hcl) as (_ & Hreach & Hstore).
    split; [| split].
    + intros x Hx. by apply Hreach.
    + intros pre x post v -> Hseq.
      destruct (logEvent_calls_pipeline env eventTypes payload options _
                  Hall Hcl) as [tail Hcalls].
      rewrite Hcalls. apply elem_of_app. left.
      by apply pipelineCalls_in.
    + intros d Hseq.
      destruct (logEvent_created _ _ payload options _ _ Hall Hcl Hseq)
        as (record & Hdata & Hids & Hrun).
      exists record. rewrite Hrun. cbn [snd].
      rewrite persisted_app, persisted_pipelineCalls.
      split; [done |]. split; [done |].
      intros x et Hx%Hreach Het. split.
      * rewrite Hids. by eapply idsOf_elem.
      * rewrite validations_app, fmap_app,
          (validations_pipelineCalls _ _ _ _ Hstore Hseq).
        apply elem_of_app. by left.
  - intros record x et Hrec Hx Het.
    destruct (logEvent_persisted _ _ _ _ _ Hrec)
      as (closure & _ & Hcl & Hseq & Hids & _ & Hrun).
    destruct (resolveClosure_spec _ _ _ Hcl) as (_ & Hreach & Hstore).
    apply Hreach in Hx. split.
    + rewrite Hids. by eapply idsOf_elem.
    + rewrite Hrun. simpl. rewrite validations_app, fmap_app. simpl.
      rewrite app_nil_r.
      by rewrite (validations_pipelineCalls _ _ _ _ Hstore Hseq).
Qed.

(** * The schema primitive layer keeps undeclared properties *)

Lemma shapeField_declared shape k f :
  shapeField shape k = Some f → k ∈ shape.*1.
Proof.
  unfold shapeField. intros Hf.
  destruct (find _ shape) as [p |] eqn:Hfind; [| done].
  apply find_some in Hfind as [Hin Hk%bool_decide_eq_true].
  subst k. apply list_elem_of_fmap_2. by apply list_elem_of_In.
Qed.

Lemma castProps_keeps shape props k :
  k ∉ shape.*1 →
  getField k (VObject (castProps false shape props)) = getField k (VObject props).
Proof.
  intros Hk. induction props as [| [k' v'] props IH]; [done |].
  unfold castProps in *. simpl in *.
  destruct (shapeField shape k') as [f |] eqn:Hf; simpl.
  - assert (k' ≠ k) by (intros ->; by apply Hk, (shapeField_declared _ _ f)).
    rewrite !bool_decide_eq_false_2 by done. apply IH.
  - destruct (bool_decide (k' = k)); [done | apply IH].
Qed.

Lemma yupObject_keepsUnknown shape : keepsUnknown (yupObject shape).
Proof.
  intros options v v' Hstrip Hv k Hk. simpl in *. unfold validateObject in Hv.
  destruct v as [| | | | | props]; try done.
  - by injection Hv as <-.
  - destruct (find _ shape); [done |]. injection Hv as <-.
    rewrite Hstrip. destruct (strict options); [done |].
    by apply castProps_keeps.
Qed.

(** * The engine at work *)

Example closure_of_user_activity :
  resolveClosure (objects (testEnv 100)) [UserActivityEventType_ref]
  = Some [UserActivityEventType_ref; ProjectActivityEventType_ref;
          ProjectEventType_ref].
Proof. reflexivity. Qed.

Example closure_on_a_cycle :
  resolveClosure
    (list_to_map [(1, plainType "$A" [2]); (2, plainType "$B" [1; 3]);
                  (3, plainType "$C" [])]) [2]
  = Some [2; 1; 3].
Proof. reflexivity. Qed.

Example closure_of_a_repeated_request :
  resolveClosure diamondStore [11; 11; 10] = Some [11; 13; 10; 12].
Proof. reflexivity. Qed.

Example instant_event :
  run (logEvent (testEnv 100) [ProjectEventType_ref] projectPayload
         {| time := None |})
  = (Ok (), [CallValidate 0 projectPayload validateOptions;
             CallCreate (projectRecord 100 100 false)]).
Proof. reflexivity. Qed.

Example unregistered_system_type :
  run (logEvent (withIndex ∅ (testEnv 100)) [ProjectEventType_ref]
         projectPayload {| time := None |})
  = (Throw (StackAssertionError "Invalid system event type: $project"
              (ExtraEventType 0) None), []).
Proof. reflexivity. Qed.

Example strict_rejects_a_number_for_a_string :
  validate (yupObject [("projectId", required yupString)])
    (VObject [("projectId", VNumber 3)])
    {| strict := true; stripUnknown := false |}
  = Rejected (ValidationError "projectId is invalid") ∧
  validate (yupObject [("projectId", required yupString)])
    (VObject [("projectId", VNumber 3); ("extra", VNull)])
    {| strict := false; stripUnknown := true |}
  = Resolved (VObject [("projectId", VString "3")]).
Proof. split; reflexivity. Qed.

(** * The theorems at concrete calls *)

Lemma logEvent_applies_schemas_in_sequence_witness :
  Forall (λ r, meetsPrecondition (testEnv 100) r = true) [2] ∧
  resolveClosure (objects (testEnv 100)) [2] = Some [2; 1; 0] ∧
  Forall keepsUnknown (schemasOf (objects (testEnv 100)) [2; 1; 0]) ∧
  data <$> persisted
    (run (logEvent (testEnv 100) [2]
            (VObject [("projectId", VString "p1"); ("userId", VString "u1");
                      ("extra", VNumber 3)])
            {| time := None |})).2
  = option_list
      (applySequentially {| strict := true; stripUnknown := false |}
         (schemasOf (objects (testEnv 100)) [2; 1; 0])
         (VObject [("projectId", VString "p1"); ("userId", VString "u1");
                   ("extra", VNumber 3)])).
Proof.
  assert (Hall : Forall (λ r, meetsPrecondition (testEnv 100) r = true) [2]).
  { apply (bool_decide_unpack _). vm_compute. exact I. }
  assert (Hcl : resolveClosure (objects (testEnv 100)) [2] = Some [2; 1; 0])
    by reflexivity.
  split; [exact Hall |]. split; [exact Hcl |]. split.
  - change (schemasOf (objects (testEnv 100)) [2; 1; 0]) with
      [yupObject [("userId", required (withTest (λ _, true) yupString))];
       yupObject []; yupObject [("projectId", required yupString)]].
    repeat constructor; apply yupObject_keepsUnknown.
  - exact (proj1 (logEvent_applies_schemas_in_sequence (testEnv 100) [2] _
                    {| time := None |} [2; 1; 0] Hall Hcl)).
Defined.

Lemma logEvent_rejects_invalid_request_witness :
  Forall (λ x, is_Some (objects legacyEnv !! x)) [0; 7] ∧
  7 ∈ [0; 7] ∧
  objects legacyEnv !! 7 = Some (plainType "legacy" []) ∧
  (String.prefix "$" "legacy" = false ∨
   eventTypesById legacyEnv !! "legacy" = None) ∧
  ∃ message r',
    r' ∈ [0; 7] ∧
    run (logEvent legacyEnv [0; 7] projectPayload {| time := None |}) =
      (Throw (StackAssertionError message (ExtraEventType r') None), []).
Proof.
  assert (Hstore : Forall (λ x, is_Some (objects legacyEnv !! x)) [0; 7]).
  { apply (bool_decide_unpack _). vm_compute. exact I. }
  assert (Hin : 7 ∈ [0; 7]).
  { apply (bool_decide_unpack _). vm_compute. exact I. }
  split; [exact Hstore |]. split; [exact Hin |].
  split; [reflexivity |]. split; [left; reflexivity |].
  apply (logEvent_rejects_invalid_request legacyEnv [0; 7] projectPayload
           {| time := None |} 7 (plainType "legacy" []) Hstore Hin);
    [reflexivity | left; reflexivity].
Defined.

Lemma logEvent_explicit_range_is_wide_witness :
  projectRecord 7 7 true ∈
    persisted (run (logEvent (testEnv 100) [0] projectPayload
                      {| time := Some (TimeRange 7 7) |})).2 ∧
  eventStartedAt (projectRecord 7 7 true) = 7%Z ∧
  eventEndedAt (projectRecord 7 7 true) = 7%Z ∧
  isWide (projectRecord 7 7 true) = true.
Proof.
  assert (Hrec : projectRecord 7 7 true ∈
    persisted (run (logEvent (testEnv 100) [0] projectPayload
                      {| time := Some (TimeRange 7 7) |})).2).
  { vm_compute. left. }
  split; [exact Hrec |].
  apply (proj2 (logEvent_explicit_range_is_wide (testEnv 100) [0]
                  projectPayload {| time := Some (TimeRange 7 7) |} 7%Z 7%Z
                  _ eq_refl) Hrec).
Defined.

Lemma logEvent_instant_is_not_wide_witness :
  projectRecord 100 100 false ∈
    persisted (run (logEvent (testEnv 100) [0] projectPayload
                      {| time := None |})).2 ∧
  eventStartedAt (projectRecord 100 100 false) = 100%Z ∧
  eventEndedAt (projectRecord 100 100 false) = 100%Z ∧
  isWide (projectRecord 100 100 false) = false.
Proof.
  assert (Hrec : projectRecord 100 100 false ∈
    persisted (run (logEvent (testEnv 100) [0] projectPayload
                      {| time := None |})).2).
  { vm_compute. left. }
  split; [exact Hrec |].
  apply (proj1 (proj2 (logEvent_instant_is_not_wide (testEnv 100) [0]
                         projectPayload {| time := None |} _ Hrec)) eq_refl).
Defined.

Lemma logEvent_validation_failure_witness :
  Forall (λ x, meetsPrecondition (testEnv 100) x = true) [2] ∧
  resolveClosure (objects (testEnv 100)) [2] = Some [2; 1; 0] ∧
  applySequentially {| strict := true; stripUnknown := false |}
    (schemasOf (objects (testEnv 100)) [2; 1]) userPayload = Some userPayload ∧
  validate (dataSchema ProjectEventType) userPayload
    {| strict := true; stripUnknown := false |}
    = Rejected (ValidationError "projectId is invalid") ∧
  ∃ calls,
    run (logEvent (testEnv 100) [2] userPayload {| time := None |}) =
      (Throw (StackAssertionError
                ("Invalid event data for event type: " +:+ id ProjectEventType)
                (ExtraInvalidData 0 userPayload
                   (ValidationError "projectId is invalid") userPayload [2])
                (Some (ValidationError "projectId is invalid"))), calls) ∧
    (validations calls).*1 = [2; 1] ++ [0] ∧
    last (validations calls) = Some (0, userPayload) ∧
    (∀ x, x ∈ [] → x ∉ (validations calls).*1) ∧
    persisted calls = [].
Proof.
  assert (Hall : Forall (λ r, meetsPrecondition (testEnv 100) r = true) [2]).
  { apply (bool_decide_unpack _). vm_compute. exact I. }
  split; [exact Hall |]. do 3 (split; [reflexivity |]).
  apply (logEvent_validation_failure (testEnv 100) [2] userPayload
           {| time := None |} [2; 1; 0] [2; 1] 0 [] ProjectEventType
           userPayload (ValidationError "projectId is invalid") Hall);
    reflexivity.
Defined.

Lemma logEvent_sink_last_and_once_witness :
  projectRecord 100 100 false ∈
    persisted (run (logEvent (testEnv 100) [0] projectPayload
                      {| time := None |})).2 ∧
  Forall (λ r, meetsPrecondition (testEnv 100) r = true) [0] ∧
  ∃ closure,
    resolveClosure (objects (testEnv 100)) [0] = Some closure ∧
    applySequentially {| strict := true; stripUnknown := false |}
      (schemasOf (objects (testEnv 100)) closure) projectPayload
      = Some (data (projectRecord 100 100 false)) ∧
    (run (logEvent (testEnv 100) [0] projectPayload {| time := None |})).2 =
      pipelineCalls (objects (testEnv 100)) closure projectPayload
      ++ [CallCreate (projectRecord 100 100 false)] ∧
    (validations
       (run (logEvent (testEnv 100) [0] projectPayload {| time := None |})).2).*1
      = closure.
Proof.
  assert (Hrec : projectRecord 100 100 false ∈
    persisted (run (logEvent (testEnv 100) [0] projectPayload
                      {| time := None |})).2).
  { vm_compute. left. }
  split; [exact Hrec |].
  apply (proj1 (proj2 (logEvent_sink_last_and_once (testEnv 100) [0]
                         projectPayload {| time := None |})) _ Hrec).
Defined.

Lemma logEvent_index_only_for_requested_witness :
  (∀ r et, r ∈ [0] → objects legacyEnv !! r = Some et →
     (is_Some (eventTypesById legacyEnv !! id et) ↔
      is_Some (({["$project" := 0; "$other" := 5]} : gmap string ref) !! id et))) ∧
  Forall (λ r, meetsPrecondition legacyEnv r = true) [0] ∧
  resolveClosure (objects legacyEnv) [0] = Some [0; 7] ∧
  meetsPrecondition legacyEnv 7 = false ∧
  reachable (objects legacyEnv) [0] 7 ∧
  run (logEvent (withIndex {["$project" := 0; "$other" := 5]} legacyEnv) [0]
         projectPayload {| time := None |})
    = run (logEvent legacyEnv [0] projectPayload {| time := None |}) ∧
  CallValidate 7 projectPayload {| strict := true; stripUnknown := false |} ∈
    (run (logEvent legacyEnv [0] projectPayload {| time := None |})).2 ∧
  ∃ record,
    persisted (run (logEvent legacyEnv [0] projectPayload
                      {| time := None |})).2 = [record] ∧
    data record = projectPayload ∧
    id (plainType "legacy" []) ∈ systemEventTypeIds record ∧
    7 ∈ (validations
           (run (logEvent legacyEnv [0] projectPayload
                   {| time := None |})).2).*1.
Proof.
  assert (Hagree : ∀ r et, r ∈ [0] → objects legacyEnv !! r = Some et →
     (is_Some (eventTypesById legacyEnv !! id et) ↔
      is_Some (({["$project" := 0; "$other" := 5]} : gmap string ref) !! id et))).
  { intros r et ->%list_elem_of_singleton [= <-]. split; intros _; by eexists. }
  assert (Hall : Forall (λ r, meetsPrecondition legacyEnv r = true) [0]).
  { apply (bool_decide_unpack _). vm_compute. exact I. }
  assert (Hcl : resolveClosure (objects legacyEnv) [0] = Some [0; 7])
    by reflexivity.
  assert (Hreach : reachable (objects legacyEnv) [0] 7).
  { exists 0. split; [left |]. apply rtc_once. eexists.
    split; [reflexivity | left]. }
  pose proof (logEvent_index_only_for_requested legacyEnv
                {["$project" := 0; "$other" := 5]} [0] projectPayload
                {| time := None |} Hagree) as (Hrun & Hclosure & _).
  destruct (Hclosure [0; 7] Hall Hcl) as (_ & Hvalidate & Hpersist).
  split; [exact Hagree |]. split; [exact Hall |]. split; [exact Hcl |].
  split; [reflexivity |]. split; [exact Hreach |]. split; [exact Hrun |].
  split.
  - apply (Hvalidate [0] 7 [] projectPayload eq_refl). reflexivity.
  - destruct (Hpersist projectPayload eq_refl) as (record & Hrec & Hdata & Hall7).
    exists record. split; [exact Hrec |]. split; [exact Hdata |].
    apply (Hall7 7 (plainType "legacy" []) Hreach). reflexivity.
Defined.

(** * Further properties of the engine *)

(** ** The precondition loop *)

Lemma precheck_first_offender env pre r post t :
  Forall (λ x, meetsPrecondition env x = true) pre →
  meetsPrecondition env r = false →
  forOf (pre ++ r :: post) (assertValid env) t = (preconditionFailure env r, t).
Proof.
  intros Hpre Hr. induction Hpre as [| x pre Hx _ IH]; simpl.
  - pose proof (assertValid_run env r t) as Hrun. rewrite Hr in Hrun.
    unfold mbind, M_bind. rewrite Hrun. unfold preconditionFailure.
    by destruct (objects env !! r).
  - rewrite (bind_Ok _ _ t () t) by by rewrite assertValid_run, Hx.
    exact IH.
Qed.

(** X1. The precondition loop stops at the first requested type that fails:
    the types after it are not looked at, no call is made, and the error
    names that type, with one message for an identifier of the system
    namespace that the index does not have and another for an identifier
    outside the namespace. *)
Theorem logEvent_throws_at_first_offender env pre r post et payload options :
  Forall (λ x, meetsPrecondition env x = true) pre →
  objects env !! r = Some et →
  String.prefix "$" (id et) = false ∨ eventTypesById env !! id et = None →
  run (logEvent env (pre ++ r :: post) payload options) =
    (Throw (StackAssertionError
              (if String.prefix "$" (id et)
               then "Invalid system event type: " +:+ id et
               else "Non-system event types are not supported yet")
              (ExtraEventType r) None), []).
Proof.
  intros Hpre Het Hbad.
  assert (Hr : meetsPrecondition env r = false).
  { unfold meetsPrecondition. rewrite Het. destruct Hbad as [-> | Hnone]; [done |].
    rewrite Hnone. apply andb_false_iff. right.
    apply bool_decide_eq_false. by intros [? ?]. }
  unfold run, logEvent.
  destruct (timeRange (timeOrTimeRange env options)) as [range wide].
  pose proof (precheck_first_offender env pre r post [] Hpre Hr) as Hrun.
  unfold preconditionFailure in Hrun. rewrite Het in Hrun.
  by rewrite (bind_Throw _ _ _ _ _ Hrun).
Qed.

Lemma logEvent_throws_at_first_offender_witness :
  Forall (λ x, meetsPrecondition legacyEnv x = true) [0] ∧
  run (logEvent legacyEnv ([0] ++ 7 :: [9]) projectPayload {| time := None |}) =
    (Throw (StackAssertionError
              "Non-system event types are not supported yet"
              (ExtraEventType 7) None), []).
Proof.
  assert (Hpre : Forall (λ x, meetsPrecondition legacyEnv x = true) [0]).
  { apply (bool_decide_unpack _). vm_compute. exact I. }
  split; [exact Hpre |].
  apply (logEvent_throws_at_first_offender legacyEnv [0] 7 [9]
           (plainType "legacy" []) projectPayload {| time := None |} Hpre);
    [reflexivity | left; reflexivity].
Defined.

(** ** More on the closure *)

Lemma forEach_app f xs ys s :
  forEach f (xs ++ ys) s =
  match forEach f xs s with
  | Some s' => forEach f ys s'
  | None => None
  end.
Proof.
  revert s. induction xs as [| x xs IH]; intros s; simpl; [done |].
  destruct (f x s); [apply IH | done].
Qed.

Lemma addEventType_member objs fuel r s :
  r ∈ s → addEventType (S fuel) objs r s = Some s.
Proof. intros Hr. simpl. by rewrite (proj2 (Set_has_true s r) Hr). Qed.

(** X2. A requested type that is already reachable from the types requested
    before it, a repeated request among them, changes nothing: the closure
    is the closure of the request without it. *)
Theorem resolveClosure_skips_reachable_request objs xs x ys closure :
  resolveClosure objs xs = Some closure →
  reachable objs xs x →
  resolveClosure objs (xs ++ x :: ys) = resolveClosure objs (xs ++ ys).
Proof.
  intros Hcl Hx. destruct (resolveClosure_spec _ _ _ Hcl) as (_ & Hreach & _).
  apply Hreach in Hx. unfold resolveClosure in *.
  rewrite !forEach_app, Hcl. simpl.
  by rewrite (proj2 (Set_has_true closure x) Hx).
Qed.

Lemma resolveClosure_skips_reachable_request_witness :
  resolveClosure diamondStore [10] = Some [10; 11; 13; 12] ∧
  reachable diamondStore [10] 13 ∧
  resolveClosure diamondStore ([10] ++ 13 :: [10])
    = resolveClosure diamondStore ([10] ++ [10]).
Proof.
  assert (Hreach : reachable diamondStore [10] 13).
  { exists 10. split; [left |].
    eapply rtc_l; [eexists; split; [reflexivity | left] |].
    apply rtc_once. eexists. split; [reflexivity | left]. }
  split; [reflexivity |]. split; [exact Hreach |].
  apply (resolveClosure_skips_reachable_request diamondStore [10] 13 [10]
           [10; 11; 13; 12] eq_refl Hreach).
Defined.

(** X3. The closure of a request followed by another is the closure of the
    first, followed by what only the second reaches: asking for more never
    reorders or removes what was there. *)
Theorem resolveClosure_app objs xs ys closure :
  resolveClosure objs (xs ++ ys) = Some closure →
  ∃ closureX new,
    resolveClosure objs xs = Some closureX ∧
    closure = closureX ++ new ∧
    ∀ y, y ∈ new ↔ reachable objs ys y ∧ ¬ reachable objs xs y.
Proof.
  intros Hcl. destruct (resolveClosure_spec _ _ _ Hcl) as (Hnd & Hreach & _).
  unfold resolveClosure in Hcl. rewrite forEach_app in Hcl.
  destruct (forEach _ xs []) as [cx |] eqn:Hcx; [| done].
  destruct (resolveClosure_spec objs xs cx Hcx) as (_ & Hreachx & _).
  destruct (forEach_extends objs _ _ (addEventType_extends objs _) _ _ Hcl)
    as [([new ->] & _ & Hsound & _) _].
  exists cx, new. split; [done |]. split; [done |].
  apply NoDup_app in Hnd as (_ & Hdisj & _).
  intros y. split.
  - intros Hy. split.
    + destruct (Hsound y) as [Hin | [? _]]; [apply elem_of_app; by right | | done].
      by destruct (Hdisj y Hin).
    + intros Hyx%Hreachx. by apply (Hdisj y Hyx).
  - intros [Hys Hnx].
    assert (Hin : y ∈ cx ++ new).
    { apply Hreach. eapply reachable_mono; [| exact Hys].
      intros z Hz. apply elem_of_app. by right. }
    apply elem_of_app in Hin as [Hin%Hreachx | Hin]; done.
Qed.

Lemma resolveClosure_app_witness :
  resolveClosure diamondStore ([11] ++ [10]) = Some [11; 13; 10; 12] ∧
  ∃ closureX new,
    resolveClosure diamondStore [11] = Some closureX ∧
    [11; 13; 10; 12] = closureX ++ new ∧
    ∀ y, y ∈ new ↔ reachable diamondStore [10] y ∧
                    ¬ reachable diamondStore [11] y.
Proof.
  split; [reflexivity |].
  apply (resolveClosure_app diamondStore [11] [10] [11; 13; 10; 12]).
  reflexivity.
Defined.

Lemma addEventType_fresh objs fuel r s :
  r ∉ s →
  addEventType (S fuel) objs r s =
  match objs !! r with
  | Some et => forEach (addEventType fuel objs) (inherits et) (s ++ [r])
  | None => None
  end.
Proof.
  intros Hr. simpl. rewrite (proj2 (Set_has_false s r) Hr).
  by rewrite (Set_add_fresh _ _ Hr).
Qed.

Lemma resolveClosure_head objs r rest closure :
  resolveClosure objs (r :: rest) = Some closure →
  ∃ et tail, objs !! r = Some et ∧ closure = r :: tail.
Proof.
  unfold resolveClosure.
  change (forEach ?f (r :: rest) []) with
    (match f r [] with Some s' => forEach f rest s' | None => None end).
  rewrite addEventType_fresh by apply not_elem_of_nil.
  destruct (objs !! r) as [et |]; [| done]. simpl app.
  destruct (forEach _ (inherits et) [r]) as [s1 |] eqn:Hs1; [| done].
  intros Hrest.
  destruct (forEach_extends objs _ _ (addEventType_extends objs _) _ _ Hs1)
    as [([n1 ->] & _) _].
  destruct (forEach_extends objs _ _ (addEventType_extends objs _) _ _ Hrest)
    as [([n2 ->] & _) _].
  exists et, (n1 ++ n2). split; [done |]. by rewrite <- app_assoc.
Qed.

(** X4. The first requested type comes first: its schema is the first to be
    applied, on the payload as the caller gave it, before the schemas of its
    ancestors, and its identifier is the first of [systemEventTypeIds]. *)
Theorem logEvent_requested_type_first env r rest payload options closure :
  Forall (λ x, meetsPrecondition env x = true) (r :: rest) →
  resolveClosure (objects env) (r :: rest) = Some closure →
  ∃ et calls,
    objects env !! r = Some et ∧
    (run (logEvent env (r :: rest) payload options)).2 =
      CallValidate r payload {| strict := true; stripUnknown := false |}
      :: calls ∧
    ∀ record,
      record ∈ persisted (run (logEvent env (r :: rest) payload options)).2 →
      ∃ ids, systemEventTypeIds record = id et :: ids.
Proof.
  intros Hall Hcl.
  destruct (resolveClosure_head _ _ _ _ Hcl) as (et & tail & Het & ->).
  exists et.
  destruct (logEvent_run env (r :: rest) payload options)
    as [x Hin Hx Hne | Hall' Hcl' | closure' e Hall' Hcl' Hseq' He
        | closure' d record' Hall' Hcl' Hseq' Hids Hdata Htime].
  - rewrite Forall_forall in Hall. rewrite (Hall x Hin) in Hx. done.
  - congruence.
  - assert (closure' = r :: tail) as -> by congruence.
    eexists. split; [done |]. cbn [snd]. split.
    + simpl. rewrite Het. reflexivity.
    + intros record. rewrite persisted_pipelineCalls.
      by intros ?%elem_of_nil.
  - assert (closure' = r :: tail) as -> by congruence.
    eexists. split; [done |]. cbn [snd]. split.
    + simpl. rewrite Het. reflexivity.
    + intros record. rewrite persisted_app, persisted_pipelineCalls. simpl.
      intros ->%list_elem_of_singleton. rewrite Hids.
      rewrite (idsOf_cons _ _ _ _ Het). by eexists.
Qed.

Lemma logEvent_requested_type_first_witness :
  Forall (λ x, meetsPrecondition (testEnv 100) x = true) [2; 3] ∧
  resolveClosure (objects (testEnv 100)) [2; 3] = Some [2; 1; 0; 3] ∧
  ∃ et calls,
    objects (testEnv 100) !! 2 = Some et ∧
    (run (logEvent (testEnv 100) [2; 3] userPayload {| time := None |})).2 =
      CallValidate 2 userPayload {| strict := true; stripUnknown := false |}
      :: calls ∧
    ∀ record,
      record ∈ persisted
        (run (logEvent (testEnv 100) [2; 3] userPayload {| time := None |})).2 →
      ∃ ids, systemEventTypeIds record = id et :: ids.
Proof.
  assert (Hall : Forall (λ x, meetsPrecondition (testEnv 100) x = true) [2; 3]).
  { apply (bool_decide_unpack _). vm_compute. exact I. }
  split; [exact Hall |]. split; [reflexivity |].
  apply (logEvent_requested_type_first (testEnv 100) 2 [3] userPayload
           {| time := None |} [2; 1; 0; 3] Hall).
  reflexivity.
Defined.

(** ** The sink and the record *)

(** X5. [logEvent] throws the error of the sink exactly when the sink has
    received the record and rejected it: the rejection is passed on as it
    is, after a single attempt, and nothing else is thrown in its name. *)
Theorem logEvent_storage_error env eventTypes payload options message :
  (run (logEvent env eventTypes payload options)).1
    = Throw (StorageError message) ↔
  ∃ record,
    persisted (run (logEvent env eventTypes payload options)).2 = [record] ∧
    eventCreate env record = Some message.
Proof.
  split.
  - destruct (logEvent_run env eventTypes payload options)
      as [r Hin Hr Hne | Hall Hcl | closure e Hall Hcl Hseq He
          | closure d record Hall Hcl Hseq Hids Hdata Htime]; simpl.
    + unfold preconditionFailure. by destruct (objects env !! r).
    + done.
    + intros [= ->]. by destruct (He message).
    + unfold sinkResult. intros Hres. exists record.
      rewrite persisted_app, persisted_pipelineCalls. split; [done |].
      destruct (eventCreate env record); [| done]. by injection Hres as ->.
  - intros (record & Hrec & Hsink).
    assert (Hin : record ∈
      persisted (run (logEvent env eventTypes payload options)).2)
      by (rewrite Hrec; by left).
    destruct (logEvent_persisted _ _ _ _ _ Hin)
      as (closure & _ & _ & _ & _ & _ & Hrun).
    rewrite Hrun. simpl. unfold sinkResult. by rewrite Hsink.
Qed.

(** X6. In every record that reaches the sink, a record that is not wide
    starts and ends at the same date; and the record is wide exactly when
    the caller gave a [{start, end}] pair. *)
Theorem persisted_record_time_extent env eventTypes payload options record :
  record ∈ persisted (run (logEvent env eventTypes payload options)).2 →
  (isWide record = false → eventStartedAt record = eventEndedAt record) ∧
  (isWide record = true ↔ ∃ s e, time options = Some (TimeRange s e)).
Proof.
  intros Hrec.
  destruct (logEvent_persisted _ _ _ _ _ Hrec) as (_ & _ & _ & _ & _ & Hrange & _).
  unfold timeOrTimeRange in Hrange.
  destruct (time options) as [[d | s e] |]; simpl in Hrange;
    injection Hrange as Hs He Hw; rewrite Hs, He, Hw.
  - split; [done |]. split; [done | by intros (? & ? & ?)].
  - split; [done |]. split; [by eexists _, _ | done].
  - split; [done |]. split; [done | by intros (? & ? & ?)].
Qed.

Lemma persisted_record_time_extent_witness :
  projectRecord 7 9 true ∈
    persisted (run (logEvent (testEnv 100) [0] projectPayload
                      {| time := Some (TimeRange 7 9) |})).2 ∧
  (isWide (projectRecord 7 9 true) = true ↔
   ∃ s e, Some (TimeRange 7 9) = Some (TimeRange s e)).
Proof.
  assert (Hrec : projectRecord 7 9 true ∈
    persisted (run (logEvent (testEnv 100) [0] projectPayload
                      {| time := Some (TimeRange 7 9) |})).2).
  { vm_compute. left. }
  split; [exact Hrec |].
  apply (proj2 (persisted_record_time_extent (testEnv 100) [0] projectPayload
                  {| time := Some (TimeRange 7 9) |} _ Hrec)).
Defined.

Lemma idsOf_fmap objs rs :
  Forall (λ x, is_Some (objs !! x)) rs →
  idsOf objs rs = (λ r, default "" (id <$> objs !! r)) <$> rs.
Proof.
  induction 1 as [| r rs [et Het] _ IH]; [done |].
  rewrite (idsOf_cons _ _ _ _ Het), IH. simpl. by rewrite Het.
Qed.

Lemma idsOf_Forall2 objs rs :
  Forall (λ x, is_Some (objs !! x)) rs →
  Forall2 (λ r i, ∃ et, objs !! r = Some et ∧ id et = i) rs (idsOf objs rs).
Proof.
  induction 1 as [| r rs [et Het] _ IH]; [constructor |].
  rewrite (idsOf_cons _ _ _ _ Het). constructor; [by exists et | done].
Qed.

Lemma NoDup_fmap_inj_on {A B} (f : A → B) (l : list A) :
  NoDup (f <$> l) → ∀ x y, x ∈ l → y ∈ l → f x = f y → x = y.
Proof.
  induction l as [| a l IH]; intros Hnd x y Hx Hy Hxy.
  - by apply elem_of_nil in Hx.
  - simpl in Hnd. apply NoDup_cons in Hnd as [Ha Hnd].
    apply elem_of_cons in Hx as [-> | Hx]; apply elem_of_cons in Hy as [-> | Hy].
    + done.
    + destruct Ha. rewrite Hxy. by apply list_elem_of_fmap_2.
    + destruct Ha. rewrite <- Hxy. by apply list_elem_of_fmap_2.
    + by apply IH.
Qed.

(** X7. [systemEventTypeIds] holds the identifier of each event type of the
    closure, in the order of the closure.  The set of the closure tells
    objects apart, not identifiers: an identifier is repeated in the record
    exactly when two distinct objects of the closure carry it. *)
Theorem logEvent_ids_follow_closure env eventTypes payload options record :
  record ∈ persisted (run (logEvent env eventTypes payload options)).2 →
  ∃ closure,
    resolveClosure (objects env) eventTypes = Some closure ∧
    Forall2 (λ r i, ∃ et, objects env !! r = Some et ∧ id et = i)
      closure (systemEventTypeIds record) ∧
    (NoDup (systemEventTypeIds record) ↔
     ∀ x y ex ey, x ∈ closure → y ∈ closure →
       objects env !! x = Some ex → objects env !! y = Some ey →
       id ex = id ey → x = y).
Proof.
  intros Hrec.
  destruct (logEvent_persisted _ _ _ _ _ Hrec)
    as (closure & _ & Hcl & _ & Hids & _).
  destruct (resolveClosure_spec _ _ _ Hcl) as (Hnd & _ & Hstore).
  exists closure. split; [done |]. rewrite Hids. split.
  - by apply idsOf_Forall2.
  - rewrite (idsOf_fmap _ _ Hstore). split.
    + intros Hids' x y ex ey Hx Hy Hex Hey Hid.
      apply (NoDup_fmap_inj_on _ _ Hids' x y Hx Hy).
      by rewrite Hex, Hey.
    + intros Hinj. apply NoDup_fmap_2_strong; [| done].
      intros x y Hx Hy Hxy. rewrite Forall_forall in Hstore.
      destruct (Hstore x Hx) as [ex Hex], (Hstore y Hy) as [ey Hey].
      rewrite Hex, Hey in Hxy. by eapply Hinj.
Qed.

Lemma logEvent_ids_follow_closure_witness :
  {| systemEventTypeIds := ["$project"; "$project"]; data := projectPayload;
     isWide := false; eventStartedAt := 100; eventEndedAt := 100 |} ∈
    persisted (run (logEvent twinEnv [0] projectPayload {| time := None |})).2 ∧
  ∃ closure,
    resolveClosure (objects twinEnv) [0] = Some closure ∧
    Forall2 (λ r i, ∃ et, objects twinEnv !! r = Some et ∧ id et = i)
      closure ["$project"; "$project"].
Proof.
  assert (Hrec :
    {| systemEventTypeIds := ["$project"; "$project"]; data := projectPayload;
       isWide := false; eventStartedAt := 100; eventEndedAt := 100 |} ∈
    persisted (run (logEvent twinEnv [0] projectPayload {| time := None |})).2).
  { vm_compute. left. }
  split; [exact Hrec |].
  destruct (logEvent_ids_follow_closure twinEnv [0] projectPayload
              {| time := None |} _ Hrec) as (closure & Hcl & Hids & _).
  exists closure. split; [exact Hcl | exact Hids].
Defined.

(** ** The system event types *)

Lemma systemObjects_lookup HTTP_METHODS isUuid isUrl r et :
  systemObjects HTTP_METHODS isUuid isUrl !! r = Some et →
  reachable (systemObjects HTTP_METHODS isUuid isUrl) [r] ProjectEventType_ref.
Proof.
  intros Het. exists r. split; [by left |].
  assert (Hstep : ∀ x y ex,
    systemObjects HTTP_METHODS isUuid isUrl !! x = Some ex →
    y ∈ inherits ex →
    parentOf (systemObjects HTTP_METHODS isUuid isUrl) x y).
  { intros x y ex Hx Hy. by exists ex. }
  destruct r as [| [| [| [| r]]]].
  - apply rtc_refl.
  - apply rtc_once.
    apply (Hstep _ _ ProjectActivityEventType); [done | by left].
  - eapply rtc_l;
      [apply (Hstep _ ProjectActivityEventType_ref
                (UserActivityEventType isUuid)); [done | by left] |].
    apply rtc_once.
    apply (Hstep _ _ ProjectActivityEventType); [done | by left].
  - apply rtc_once.
    apply (Hstep _ _ (ApiRequestEventType HTTP_METHODS isUrl));
      [done | by left].
  - exfalso. unfold systemObjects in Het. simpl in Het.
    rewrite !lookup_insert_ne in Het by done. by rewrite lookup_empty in Het.
Qed.

Lemma reachable_store_mono (objs objs' : gmap ref EventType) roots x :
  (∀ r et, objs !! r = Some et → objs' !! r = Some et) →
  reachable objs roots x → reachable objs' roots x.
Proof.
  intros Hext (r & Hr & Hrx). exists r. split; [done |]. clear Hr.
  induction Hrx as [| a b c (ea & Ha & Hb) _ IH]; [apply rtc_refl |].
  eapply rtc_l; [| exact IH]. exists ea. split; [by apply Hext | done].
Qed.

Lemma systemObjects_meetsPrecondition HTTP_METHODS isUuid isUrl env r :
  (∀ x et, systemObjects HTTP_METHODS isUuid isUrl !! x = Some et →
           objects env !! x = Some et) →
  eventTypesById env = systemEventTypesById HTTP_METHODS isUuid isUrl →
  is_Some (systemObjects HTTP_METHODS isUuid isUrl !! r) →
  meetsPrecondition env r = true.
Proof.
  intros Hext Hindex [et Het]. unfold meetsPrecondition.
  rewrite (Hext r et Het), Hindex.
  destruct r as [| [| [| [| r]]]].
  - injection Het as <-. apply andb_true_iff. split; [done |].
    apply bool_decide_eq_true. by eexists.
  - injection Het as <-. apply andb_true_iff. split; [done |].
    apply bool_decide_eq_true. by eexists.
  - injection Het as <-. apply andb_true_iff. split; [done |].
    apply bool_decide_eq_true. by eexists.
  - injection Het as <-. apply andb_true_iff. split; [done |].
    apply bool_decide_eq_true. by eexists.
  - exfalso. unfold systemObjects in Het. simpl in Het.
    rewrite !lookup_insert_ne in Het by done. by rewrite lookup_empty in Het.
Qed.

(** X8. When the requested types are event types that [events.tsx]
    registers, in a store that may hold other event types beside them, the
    event is a project event: for a non-empty request the closure holds
    [ProjectEventType]; every record that reaches the sink has had its
    schema applied and has ["$project"] among its identifiers; and with the
    index of [events.tsx] such a record does reach the sink whenever the
    schemas of the closure accept.  (An event type that is not one of these
    objects can pass the precondition by its identifier alone, and is then
    under no such rule.) *)
Theorem system_events_are_project_events HTTP_METHODS isUuid isUrl env
    eventTypes payload options :
  (∀ r et, systemObjects HTTP_METHODS isUuid isUrl !! r = Some et →
           objects env !! r = Some et) →
  eventTypes ≠ [] →
  Forall (λ r, is_Some (systemObjects HTTP_METHODS isUuid isUrl !! r))
    eventTypes →
  (∀ closure,
     resolveClosure (objects env) eventTypes = Some closure →
     ProjectEventType_ref ∈ closure) ∧
  (∀ record,
     record ∈ persisted (run (logEvent env eventTypes payload options)).2 →
     "$project" ∈ systemEventTypeIds record ∧
     ProjectEventType_ref ∈
       (validations (run (logEvent env eventTypes payload options)).2).*1) ∧
  (∀ closure d,
     eventTypesById env = systemEventTypesById HTTP_METHODS isUuid isUrl →
     resolveClosure (objects env) eventTypes = Some closure →
     applySequentially {| strict := true; stripUnknown := false |}
       (schemasOf (objects env) closure) payload = Some d →
     ∃ record,
       persisted (run (logEvent env eventTypes payload options)).2
         = [record] ∧
       "$project" ∈ systemEventTypeIds record).
Proof.
  intros Hext Hne Hreq.
  assert (Hproject : objects env !! ProjectEventType_ref = Some ProjectEventType)
    by (by apply Hext).
  assert (Hin : ∀ closure,
    resolveClosure (objects env) eventTypes = Some closure →
    ProjectEventType_ref ∈ closure).
  { intros closure Hcl.
    destruct (resolveClosure_spec _ _ _ Hcl) as (_ & Hreach & _).
    destruct eventTypes as [| r rest]; [done |].
    apply Forall_cons in Hreq as [[et Het] _].
    apply Hreach.
    eapply reachable_mono;
      [| eapply reachable_store_mono;
         [exact Hext | exact (systemObjects_lookup _ _ _ _ _ Het)]].
    intros x ->%list_elem_of_singleton. by left. }
  split; [exact Hin |]. split.
  - intros record Hrec.
    destruct (logEvent_persisted _ _ _ _ _ Hrec)
      as (closure & Hall & Hcl & Hseq & Hids & _ & Hrun).
    destruct (resolveClosure_spec _ _ _ Hcl) as (_ & _ & Hstore).
    split.
    + rewrite Hids.
      by apply (idsOf_elem _ _ _ ProjectEventType (Hin _ Hcl)).
    + rewrite Hrun. cbn [snd].
      rewrite validations_app, fmap_app,
        (validations_pipelineCalls _ _ _ _ Hstore Hseq).
      apply elem_of_app. left. by apply Hin.
  - intros closure d Hindex Hcl Hseq.
    assert (Hall : Forall (λ r, meetsPrecondition env r = true) eventTypes).
    { eapply Forall_impl; [exact Hreq |]. intros r Hr. simpl.
      by eapply systemObjects_meetsPrecondition. }
    destruct (logEvent_created _ _ payload options _ _ Hall Hcl Hseq)
      as (record & _ & Hids & Hrun).
    exists record. rewrite Hrun. cbn [snd].
    rewrite persisted_app, persisted_pipelineCalls. split; [done |].
    rewrite Hids.
    by apply (idsOf_elem _ _ _ ProjectEventType (Hin _ Hcl)).
Qed.

Lemma system_events_are_project_events_witness :
  (∀ r et,
     systemObjects ["GET"; "POST"] (λ _, true) (λ _, true) !! r = Some et →
     objects borrowedEnv !! r = Some et) ∧
  [3] ≠ [] ∧
  Forall (λ r, is_Some (systemObjects ["GET"; "POST"] (λ _, true) (λ _, true)
                          !! r)) [3] ∧
  resolveClosure (objects borrowedEnv) [3] = Some [3; 0] ∧
  ∃ record,
    persisted
      (run (logEvent borrowedEnv [3] apiRequestPayload
              {| time := None |})).2 = [record] ∧
    "$project" ∈ systemEventTypeIds record.
Proof.
  assert (Hext : ∀ r et,
     systemObjects ["GET"; "POST"] (λ _, true) (λ _, true) !! r = Some et →
     objects borrowedEnv !! r = Some et).
  { intros r et Het. simpl. rewrite lookup_insert_ne; [done |].
    intros <-. discriminate Het. }
  assert (Hne : [3] ≠ ([] : list ref)) by discriminate.
  assert (Hreq : Forall (λ r, is_Some (systemObjects ["GET"; "POST"]
                                         (λ _, true) (λ _, true) !! r)) [3]).
  { constructor; [by eexists | constructor]. }
  split; [exact Hext |]. split; [exact Hne |]. split; [exact Hreq |].
  split; [reflexivity |].
  apply (proj2 (proj2 (system_events_are_project_events ["GET"; "POST"]
                         (λ _, true) (λ _, true) borrowedEnv [3]
                         apiRequestPayload {| time := None |} Hext Hne Hreq))
           [3; 0] apiRequestPayload eq_refl eq_refl).
  reflexivity.
Defined.

Example borrowed_identifier_is_not_a_project_event :
  run (logEvent borrowedEnv [9] (VObject []) {| time := None |})
  = (Ok (),
     [CallValidate 9 (VObject []) validateOptions;
      CallCreate {| systemEventTypeIds := ["$api-request"];
                    data := VObject []; isWide := false;
                    eventStartedAt := 100; eventEndedAt := 100 |}]).
Proof. reflexivity. Qed.

Example storage_error_is_passed_on :
  run (logEvent downEnv [0] projectPayload {| time := None |})
  = (Throw (StorageError "connection refused"),
     [CallValidate 0 projectPayload validateOptions;
      CallCreate (projectRecord 100 100 false)]).
Proof. reflexivity. Qed.

(** * Strings *)

Lemma String_app_cons c s t : String c s +:+ t = String c (s +:+ t).
Proof. reflexivity. Qed.

Lemma String_app_nil t : "" +:+ t = t.
Proof. reflexivity. Qed.

Lemma String_length_app s t :
  String.length (s +:+ t) = String.length s + String.length t.
Proof.
  induction s as [| c s IH]; [done |].
  rewrite String_app_cons. simpl. by rewrite IH.
Qed.

Lemma String_app_assoc s t u : (s +:+ t) +:+ u = s +:+ (t +:+ u).
Proof.
  induction s as [| c s IH]; [done |].
  rewrite !String_app_cons. by rewrite IH.
Qed.

Lemma String_prefix_app p s : String.prefix p (p +:+ s) = true.
Proof.
  induction p as [| c p IH]; [by destruct s |].
  rewrite String_app_cons. simpl. by destruct (Ascii.ascii_dec c c).
Qed.

Lemma String_substring_prefix p s :
  String.substring 0 (String.length p) (p +:+ s) = p.
Proof.
  induction p as [| c p IH]; [by destruct s |].
  rewrite String_app_cons. simpl. by rewrite IH.
Qed.

Lemma String_substring_all s : String.substring 0 (String.length s) s = s.
Proof. induction s as [| c s IH]; simpl; [done | by rewrite IH]. Qed.

Lemma String_substring_drop p s n :
  String.substring (String.length p) n (p +:+ s) = String.substring 0 n s.
Proof.
  induction p as [| c p IH]; [done |]. by rewrite String_app_cons.
Qed.

Lemma String_drop_app p s : String_drop (String.length p) (p +:+ s) = s.
Proof.
  induction p as [| c p IH]; [done |]. by rewrite String_app_cons.
Qed.

(** ** The keys of [SystemEventTypes] *)

Lemma stripEventTypeSuffix_app k : stripEventTypeSuffix (k +:+ "EventType") = k.
Proof.
  induction k as [| c k IH]; [done |].
  change (stripEventTypeSuffix (String c k +:+ "EventType")) with
    (if String.eqb (String c (k +:+ "EventType")) "EventType" then ""
     else String c (stripEventTypeSuffix (k +:+ "EventType"))).
  rewrite IH.
  destruct (String.eqb_spec (String c (k +:+ "EventType")) "EventType")
    as [Heq | _]; [| done].
  apply (f_equal String.length) in Heq. simpl in Heq.
  rewrite String_length_app in Heq. simpl in Heq. lia.
Qed.

Lemma stripEventTypeSuffix_other key :
  (∀ k, key ≠ k +:+ "EventType") → stripEventTypeSuffix key = key.
Proof.
  induction key as [| c key IH]; intros Hno; [done |].
  change (stripEventTypeSuffix (String c key)) with
    (if String.eqb (String c key) "EventType" then ""
     else String c (stripEventTypeSuffix key)).
  destruct (String.eqb_spec (String c key) "EventType") as [Heq | _].
  - by destruct (Hno "").
  - rewrite IH; [done |]. intros k ->. by destruct (Hno (String c k)).
Qed.

(** X9. [stripEventTypeSuffixFromKeys] removes ["EventType"] from the end of
    a key that ends with it, once, and leaves any other key as it is; a key
    that ends with it twice keeps one. *)
Theorem stripEventTypeSuffix_spec key :
  (∀ k, key = k +:+ "EventType" → stripEventTypeSuffix key = k) ∧
  ((∀ k, key ≠ k +:+ "EventType") → stripEventTypeSuffix key = key) ∧
  stripEventTypeSuffix (key +:+ "EventType" +:+ "EventType")
    = key +:+ "EventType".
Proof.
  split; [| split].
  - intros k ->. apply stripEventTypeSuffix_app.
  - apply stripEventTypeSuffix_other.
  - rewrite <- String_app_assoc. apply stripEventTypeSuffix_app.
Qed.

Lemma stripEventTypeSuffix_spec_witness :
  (∀ k, "Project" ≠ k +:+ "EventType") ∧
  stripEventTypeSuffix "Project" = "Project" ∧
  stripEventTypeSuffix "ProjectEventType" = "Project".
Proof.
  assert (Hno : ∀ k, "Project" ≠ k +:+ "EventType").
  { intros k Hk. apply (f_equal String.length) in Hk.
    rewrite String_length_app in Hk. simpl in Hk. lia. }
  split; [exact Hno |]. split.
  - apply (proj1 (proj2 (stripEventTypeSuffix_spec "Project")) Hno).
  - apply (proj1 (stripEventTypeSuffix_spec "ProjectEventType") "Project").
    reflexivity.
Defined.

Lemma Object_fromEntries_snoc {V} (entries : list (string * V)) k v :
  Object_fromEntries (entries ++ [(k, v)]) = <[k := v]> (Object_fromEntries entries).
Proof. unfold Object_fromEntries. by rewrite foldl_app. Qed.

Lemma Object_fromEntries_lookup {V} (entries : list (string * V)) k v :
  Object_fromEntries entries !! k = Some v → (k, v) ∈ entries.
Proof.
  induction entries as [| [k' v'] entries IH] using rev_ind.
  - unfold Object_fromEntries. simpl. by rewrite lookup_empty.
  - rewrite Object_fromEntries_snoc, elem_of_app.
    destruct (decide (k' = k)) as [-> | Hne].
    + rewrite lookup_insert_eq. intros [= ->]. right. by left.
    + rewrite lookup_insert_ne by done. intros H. left. by apply IH.
Qed.

Lemma Object_fromEntries_NoDup {V} (entries : list (string * V)) k v :
  NoDup entries.*1 → (k, v) ∈ entries →
  Object_fromEntries entries !! k = Some v.
Proof.
  induction entries as [| [k' v'] entries IH] using rev_ind;
    intros Hnd Hin.
  - by apply elem_of_nil in Hin.
  - rewrite fmap_app in Hnd. apply NoDup_app in Hnd as (Hnd & Hdisj & _).
    rewrite Object_fromEntries_snoc.
    apply elem_of_app in Hin as [Hin | [= -> ->]%list_elem_of_singleton].
    + assert (k ≠ k').
      { intros ->. apply (Hdisj k'); [| by left].
        by apply (list_elem_of_fmap_2 fst _ (k', v)). }
      rewrite lookup_insert_ne by done. by apply IH.
    + by rewrite lookup_insert_eq.
Qed.

Lemma foldl_insert_lookup_ne {V} (l : list (string * V)) k :
  (∀ kv, kv ∈ l → kv.1 ≠ k) →
  ∀ m : gmap string V, foldl (λ m kv, <[kv.1 := kv.2]> m) m l !! k = m !! k.
Proof.
  induction l as [| kv l IH]; intros Hl m; [done |]. simpl.
  rewrite IH by (intros kv' Hkv'; apply Hl; by right).
  apply lookup_insert_ne. apply Hl. by left.
Qed.

Lemma Object_fromEntries_last {V} (l1 l2 : list (string * V)) k v :
  (∀ kv, kv ∈ l2 → kv.1 ≠ k) →
  Object_fromEntries (l1 ++ (k, v) :: l2) !! k = Some v.
Proof.
  intros Hl2. unfold Object_fromEntries. rewrite foldl_app. simpl.
  rewrite (foldl_insert_lookup_ne _ _ Hl2). apply lookup_insert_eq.
Qed.

(** X10. The object that [stripEventTypeSuffixFromKeys] returns has, under a
    key, a value of the argument whose key is stripped to that key, and
    nothing else.  Under a stripped key it has the value of the last entry
    of the argument whose key is stripped to it: when no two keys of the
    argument are stripped to the same key, every value of the argument is
    kept under its stripped key; when several are, the later one replaces
    the earlier ones.  A key to which no key of the argument is stripped is
    absent. *)
Theorem stripEventTypeSuffixFromKeys_spec {V} (t : list (string * V)) :
  (∀ k' v, stripEventTypeSuffixFromKeys t !! k' = Some v →
     ∃ k, (k, v) ∈ t ∧ stripEventTypeSuffix k = k') ∧
  (NoDup (stripEventTypeSuffix <$> t.*1) →
   ∀ k v, (k, v) ∈ t →
     stripEventTypeSuffixFromKeys t !! stripEventTypeSuffix k = Some v) ∧
  (∀ t1 k v t2,
     t = t1 ++ (k, v) :: t2 →
     (∀ k2 v2, (k2, v2) ∈ t2 →
        stripEventTypeSuffix k2 ≠ stripEventTypeSuffix k) →
     stripEventTypeSuffixFromKeys t !! stripEventTypeSuffix k = Some v) ∧
  (∀ k',
     (∀ k v, (k, v) ∈ t → stripEventTypeSuffix k ≠ k') →
     stripEventTypeSuffixFromKeys t !! k' = None).
Proof.
  unfold stripEventTypeSuffixFromKeys. split; [| split; [| split]].
  - intros k' v Hlook. apply Object_fromEntries_lookup in Hlook.
    apply list_elem_of_In, in_map_iff in Hlook as ([k v'] & [= <- <-] & Hin).
    exists k. split; [by apply list_elem_of_In | done].
  - intros Hnd k v Hin. apply Object_fromEntries_NoDup.
    + replace ((map (λ kv, (stripEventTypeSuffix kv.1, kv.2)) t).*1)
        with (stripEventTypeSuffix <$> t.*1); [done |].
      clear. induction t as [| [k v] t IH]; [done |]. simpl. by f_equal.
    + apply list_elem_of_In, in_map_iff. exists (k, v).
      split; [done | by apply list_elem_of_In].
  - intros t1 k v t2 -> Hlater. rewrite map_app. simpl.
    apply Object_fromEntries_last.
    intros kv' Hkv'. apply list_elem_of_In, in_map_iff in Hkv'
      as ([k2 v2] & <- & Hin%list_elem_of_In). simpl. by eapply Hlater.
  - intros k' Hnone. unfold Object_fromEntries.
    rewrite foldl_insert_lookup_ne; [apply lookup_empty |].
    intros kv' Hkv'. apply list_elem_of_In, in_map_iff in Hkv'
      as ([k v] & <- & Hin%list_elem_of_In). simpl. by eapply Hnone.
Qed.

Lemma stripEventTypeSuffixFromKeys_spec_witness :
  (∀ k2 v2, (k2, v2) ∈ [("BarEventType", 3)] →
     stripEventTypeSuffix k2 ≠ stripEventTypeSuffix "FooEventType") ∧
  stripEventTypeSuffixFromKeys
    [("Foo", 2); ("FooEventType", 1); ("BarEventType", 3)]
    !! stripEventTypeSuffix "FooEventType" = Some 1 ∧
  NoDup (stripEventTypeSuffix <$>
           [("ProjectEventType", 0); ("ProjectActivityEventType", 1);
            ("UserActivityEventType", 2); ("ApiRequestEventType", 3)].*1) ∧
  stripEventTypeSuffixFromKeys
    [("ProjectEventType", 0); ("ProjectActivityEventType", 1);
     ("UserActivityEventType", 2); ("ApiRequestEventType", 3)]
    !! stripEventTypeSuffix "UserActivityEventType" = Some 2.
Proof.
  assert (Hlater : ∀ k2 v2, (k2, v2) ∈ [("BarEventType", 3)] →
     stripEventTypeSuffix k2 ≠ stripEventTypeSuffix "FooEventType").
  { intros k2 v2 [= -> ->]%list_elem_of_singleton. vm_compute. discriminate. }
  assert (Hnd : NoDup (stripEventTypeSuffix <$>
           [("ProjectEventType", 0); ("ProjectActivityEventType", 1);
            ("UserActivityEventType", 2); ("ApiRequestEventType", 3)].*1)).
  { apply (bool_decide_unpack _). vm_compute. exact I. }
  split; [exact Hlater |]. split; [| split; [exact Hnd |]].
  - apply (proj1 (proj2 (proj2 (stripEventTypeSuffixFromKeys_spec
             [("Foo", 2); ("FooEventType", 1); ("BarEventType", 3)])))
             [("Foo", 2)] "FooEventType" 1 [("BarEventType", 3)] eq_refl
             Hlater).
  - apply (proj1 (proj2 (stripEventTypeSuffixFromKeys_spec _)) Hnd).
    apply (bool_decide_unpack _). vm_compute. exact I.
Defined.

Example SystemEventTypes_keys :
  stripEventTypeSuffixFromKeys
    [("ProjectEventType", ProjectEventType_ref);
     ("ProjectActivityEventType", ProjectActivityEventType_ref);
     ("UserActivityEventType", UserActivityEventType_ref);
     ("ApiRequestEventType", ApiRequestEventType_ref)]
  = list_to_map SystemEventTypes.
Proof. apply (bool_decide_unpack _). vm_compute. exact I. Qed.

(** ** The paths of the OpenAPI script *)

Lemma lacks_app c s t : lacks c (s +:+ t) = lacks c s && lacks c t.
Proof.
  induction s as [| x s IH]; [done |].
  rewrite String_app_cons. simpl. rewrite IH. by rewrite andb_assoc.
Qed.

Lemma lacks_prefix c rest s :
  lacks c s = true → String.prefix (String c rest) s = false.
Proof.
  destruct s as [| x s]; [done |]. simpl.
  intros [Hx _]%andb_true_iff. destruct (Ascii.ascii_dec c x) as [-> |]; [| done].
  by rewrite Ascii.eqb_refl in Hx.
Qed.

Lemma lastIndexFrom_lacks c rest s :
  lacks c s = true → ∀ i, lastIndexFrom (String c rest) s i = (-1)%Z.
Proof.
  induction s as [| x s IH]; intros Hs i; [done |].
  pose proof (lacks_prefix c rest _ Hs) as Hpre.
  simpl in Hs. apply andb_true_iff in Hs as [_ Hs].
  cbn [lastIndexFrom]. rewrite (IH Hs). simpl (0 <=? -1)%Z. cbv iota.
  by rewrite Hpre.
Qed.

Lemma lastIndexFrom_app pat mid t : ∀ i r,
  (0 ≤ r)%Z →
  lastIndexFrom pat t (i + Z.of_nat (String.length mid)) = r →
  lastIndexFrom pat (mid +:+ t) i = r.
Proof.
  induction mid as [| c mid IH]; intros i r Hr Hlast.
  - rewrite String_app_nil. simpl in Hlast. by rewrite Z.add_0_r in Hlast.
  - rewrite String_app_cons. cbn [lastIndexFrom].
    rewrite (IH (i + 1)%Z r Hr).
    + by rewrite (proj2 (Z.leb_le 0 r) Hr).
    + rewrite <- Hlast. f_equal. simpl String.length. lia.
Qed.

Lemma lastIndexFrom_here c rest ext i :
  lacks c rest = true → lacks c ext = true →
  lastIndexFrom (String c rest) (String c rest +:+ ext) i = i.
Proof.
  intros Hrest Hext. rewrite String_app_cons. cbn [lastIndexFrom].
  rewrite lastIndexFrom_lacks by (rewrite lacks_app, Hrest, Hext; done).
  simpl (0 <=? -1)%Z. cbv iota.
  by rewrite <- String_app_cons, String_prefix_app.
Qed.

Lemma String_slice_from p s :
  String_slice (p +:+ s) (Z.of_nat (String.length p)) None = s.
Proof.
  unfold String_slice. rewrite String_length_app.
  destruct (Z.ltb_spec (Z.of_nat (String.length p)) 0) as [? | _]; [lia |].
  rewrite Z.min_l by lia.
  rewrite Nat2Z.inj_add, Z.add_simpl_l, !Nat2Z.id.
  by rewrite String_substring_drop, String_substring_all.
Qed.

Lemma String_slice_to p s :
  String_slice (p +:+ s) 0 (Some (Z.of_nat (String.length p))) = p.
Proof.
  unfold String_slice. rewrite String_length_app.
  change (0 <? 0)%Z with false. cbv iota.
  destruct (Z.ltb_spec (Z.of_nat (String.length p)) 0) as [? | _]; [lia |].
  rewrite !Z.min_l by lia. rewrite Z.sub_0_r, Nat2Z.id.
  apply String_substring_prefix.
Qed.

Lemma endpointOf_under_prefix mid ext :
  lacks "/"%char ext = true →
  endpointOf ("src/app/api/v1" +:+ mid +:+ "/route." +:+ ext) =
    inr {| importPath := "@/app/api/v1" +:+ mid +:+ "/route." +:+ ext;
           urlPath := String_replace (String_replace mid "[" "{") "]" "}" |}.
Proof.
  intros Hext. unfold endpointOf, filePathPrefix, importPathPrefix.
  rewrite String_prefix_app. cbv [negb]. cbv iota.
  rewrite String_slice_from.
  unfold String_lastIndexOf.
  rewrite (lastIndexFrom_app _ _ _ 0 (Z.of_nat (String.length mid)));
    [| lia | apply (lastIndexFrom_here "/"%char "route."); done].
  by rewrite String_slice_to.
Qed.

(** X11. A path that does not start with ["src/app/api/v1"] is refused with
    an error that quotes it.  For a route file under that directory, the
    path to import is the path of the file with the directory replaced by
    ["@/app/api/v1"], and the path of the endpoint is made from what stands
    between the directory and the last ["/route."]. *)
Theorem endpointOf_route_file mid ext :
  lacks "/"%char ext = true →
  endpointOf ("src/app/api/v1" +:+ mid +:+ "/route." +:+ ext) =
    inr {| importPath := "@/app/api/v1" +:+ mid +:+ "/route." +:+ ext;
           urlPath := String_replace (String_replace mid "[" "{") "]" "}" |} ∧
  ∀ filePath,
    String.prefix "src/app/api/v1" filePath = false →
    endpointOf filePath = inl ("Invalid file path: " +:+ filePath).
Proof.
  intros Hext. split.
  - apply (endpointOf_under_prefix _ _ Hext).
  - intros filePath Hpre. unfold endpointOf, filePathPrefix. by rewrite Hpre.
Qed.

Lemma endpointOf_route_file_witness :
  lacks "/"%char "tsx" = true ∧
  endpointOf ("src/app/api/v1" +:+ "/users/[userId]" +:+ "/route." +:+ "tsx") =
    inr {| importPath := "@/app/api/v1" +:+ "/users/[userId]" +:+ "/route."
                           +:+ "tsx";
           urlPath := String_replace
                        (String_replace "/users/[userId]" "[" "{") "]" "}" |}.
Proof.
  split; [reflexivity |].
  apply (proj1 (endpointOf_route_file "/users/[userId]" "tsx" eq_refl)).
Defined.

Lemma String_replace_char c a b rep :
  lacks c a = true →
  String_replace (a +:+ String c b) (String c "") rep = a +:+ rep +:+ b.
Proof.
  induction a as [| x a IH]; intros Ha.
  - rewrite !String_app_nil. cbn [String_replace].
    assert (String.prefix (String c "") (String c b) = true) as ->.
    { simpl. destruct (Ascii.ascii_dec c c); [by destruct b | done]. }
    reflexivity.
  - pose proof (lacks_prefix c "" _ Ha) as Hpre.
    simpl in Ha. apply andb_true_iff in Ha as [_ Ha].
    rewrite !String_app_cons. cbn [String_replace].
    assert (String.prefix (String c "") (String x (a +:+ String c b)) = false)
      as ->.
    { simpl in *. destruct (Ascii.ascii_dec c x); [| done].
      by destruct a. }
    by rewrite (IH Ha).
Qed.

Lemma String_replace_lacks c s rep :
  lacks c s = true → String_replace s (String c "") rep = s.
Proof.
  induction s as [| x s IH]; intros Hs; [done |].
  pose proof (lacks_prefix c "" _ Hs) as Hpre.
  simpl in Hs. apply andb_true_iff in Hs as [_ Hs].
  cbn [String_replace]. rewrite Hpre. by rewrite (IH Hs).
Qed.

(** X12. Only the first ["["] and the first ["]"] of a route become braces:
    the first dynamic segment of a route is written [{name}] in the path of
    the endpoint, and whatever follows it is copied as it is, brackets
    included.  A route without brackets is its own endpoint path. *)
Theorem endpointOf_first_brackets_only a b c ext :
  lacks "["%char a = true → lacks "]"%char a = true → lacks "]"%char b = true →
  lacks "/"%char ext = true →
  ∃ e,
    endpointOf ("src/app/api/v1" +:+ (a +:+ "[" +:+ b +:+ "]" +:+ c)
                +:+ "/route." +:+ ext) = inr e ∧
    urlPath e = a +:+ "{" +:+ b +:+ "}" +:+ c ∧
    ∀ mid e',
      lacks "["%char mid = true → lacks "]"%char mid = true →
      endpointOf ("src/app/api/v1" +:+ mid +:+ "/route." +:+ ext) = inr e' →
      urlPath e' = mid.
Proof.
  intros Ha Ha' Hb Hext. eexists. split; [| split].
  - apply (endpointOf_under_prefix _ _ Hext).
  - simpl urlPath.
    change ("[" +:+ b +:+ "]" +:+ c) with (String "[" (b +:+ "]" +:+ c)).
    rewrite (String_replace_char _ _ _ _ Ha).
    assert (a +:+ "{" +:+ b +:+ "]" +:+ c
            = (a +:+ "{" +:+ b) +:+ String "]" c) as ->
      by (by rewrite !String_app_assoc).
    rewrite String_replace_char; [by rewrite !String_app_assoc |].
    rewrite !lacks_app, Ha', Hb. done.
  - intros mid e' Hmid Hmid' He'.
    rewrite (endpointOf_under_prefix _ _ Hext) in He'.
    injection He' as <-. simpl.
    rewrite (String_replace_lacks _ _ _ Hmid).
    by rewrite (String_replace_lacks _ _ _ Hmid').
Qed.

Lemma endpointOf_first_brackets_only_witness :
  lacks "["%char "/teams/" = true ∧ lacks "]"%char "/teams/" = true ∧
  lacks "]"%char "teamId" = true ∧ lacks "/"%char "ts" = true ∧
  ∃ e,
    endpointOf "src/app/api/v1/teams/[teamId]/users/[userId]/route.ts"
      = inr e ∧
    urlPath e = "/teams/{teamId}/users/[userId]".
Proof.
  do 4 (split; [reflexivity |]).
  destruct (endpointOf_first_brackets_only "/teams/" "teamId"
              "/users/[userId]" "ts" eq_refl eq_refl eq_refl eq_refl)
    as (e & He & Hurl & _).
  exists e. split; [exact He | exact Hurl].
Defined.

Example endpointOf_without_route :
  endpointOf "src/app/api/v1/users/handler.ts"
  = inr {| importPath := "@/app/api/v1/users/handler.ts";
           urlPath := "/users/handler.t" |}.
Proof. reflexivity. Qed.

(** * The server interface *)

Lemma serverCall_secret_header this path options session requestType :
  reqHeaders (callOptions (serverCall this path options session requestType))
    !! "x-stack-secret-server-key" =
  Some match reqHeaders options !! "x-stack-secret-server-key" with
       | Some own => own
       | None =>
           match serverOptions this with
           | SecretServerKey secretServerKey => secretServerKey
           | ProjectOwnerSession _ => ""
           end
       end.
Proof.
  simpl. rewrite lookup_union.
  destruct (reqHeaders options !! "x-stack-secret-server-key") as [own |].
  - by rewrite lookup_singleton_eq.
  - by rewrite lookup_singleton_eq.
Qed.

(** X13. [sendServerRequest] makes one call of [sendClientRequest] and
    settles as it does.  The call has the path, method, body, session and
    request type it was given, and the headers it was given with
    [x-stack-secret-server-key] added: the secret server key of the
    options, or the empty string when the options have none.  A header of
    that name given by the caller wins over the key. *)
Theorem sendServerRequest_call this path options session requestType t :
  ∃ call,
    sendServerRequest this path options session requestType t =
      (sendClientRequest this t call, t ++ [call]) ∧
    callPath call = path ∧
    callSession call = session ∧
    callType call = requestType ∧
    reqMethod (callOptions call) = reqMethod options ∧
    reqBody (callOptions call) = reqBody options ∧
    (∀ k, k ≠ "x-stack-secret-server-key" →
       reqHeaders (callOptions call) !! k = reqHeaders options !! k) ∧
    reqHeaders (callOptions call) !! "x-stack-secret-server-key" =
      Some match reqHeaders options !! "x-stack-secret-server-key" with
           | Some own => own
           | None =>
               match serverOptions this with
               | SecretServerKey secretServerKey => secretServerKey
               | ProjectOwnerSession _ => ""
               end
           end.
Proof.
  exists (serverCall this path options session requestType).
  repeat split.
  - intros k Hk. simpl. rewrite lookup_union, lookup_singleton_ne by done.
    by destruct (reqHeaders options !! k).
  - apply serverCall_secret_header.
Qed.

Lemma catchKnownError_run {A} errorsToCatch e t :
  catchKnownError (A := A) errorsToCatch e t =
  (if existsb (instanceOf e) errorsToCatch then inr (ResultError e) else inl e,
   t).
Proof.
  induction errorsToCatch as [| errorType rest IH]; simpl; [done |].
  destruct (instanceOf e errorType); [done | exact IH].
Qed.

Lemma sendServerRequestAndCatchKnownError_run this path options session
    errorsToCatch t :
  sendServerRequestAndCatchKnownError this path options session errorsToCatch t
  = (match sendClientRequest this t
             (serverCall this path options session Server) with
     | inr response => inr (ResultOk response)
     | inl e =>
         if existsb (instanceOf e) errorsToCatch then inr (ResultError e)
         else inl e
     end, t ++ [serverCall this path options session Server]).
Proof.
  unfold sendServerRequestAndCatchKnownError, tryCatch, sendServerRequest,
    mbind, Req_bind.
  destruct (sendClientRequest this t _) as [e | response]; [| done].
  by rewrite catchKnownError_run.
Qed.

(** X14. [sendServerRequestAndCatchKnownError] makes one request, of type
    server.  It returns [Result.ok] with the response when the request
    succeeds, [Result.error] with the error when the request throws an
    instance of one of the classes to catch, and throws the error again, as
    it is, in every other case; with no class to catch it catches nothing. *)
Theorem sendServerRequestAndCatchKnownError_spec this path options session
    errorsToCatch t :
  (sendServerRequestAndCatchKnownError this path options session
     errorsToCatch t).2
    = t ++ [serverCall this path options session Server] ∧
  (∀ response,
     sendClientRequest this t (serverCall this path options session Server)
       = inr response →
     (sendServerRequestAndCatchKnownError this path options session
        errorsToCatch t).1 = inr (ResultOk response)) ∧
  (∀ e,
     sendClientRequest this t (serverCall this path options session Server)
       = inl e →
     ((∃ cls, cls ∈ errorsToCatch ∧ instanceOf e cls = true) →
      (sendServerRequestAndCatchKnownError this path options session
         errorsToCatch t).1 = inr (ResultError e)) ∧
     ((∀ cls, cls ∈ errorsToCatch → instanceOf e cls = false) →
      (sendServerRequestAndCatchKnownError this path options session
         errorsToCatch t).1 = inl e)).
Proof.
  rewrite sendServerRequestAndCatchKnownError_run. simpl.
  split; [done |]. split.
  - by intros response ->.
  - intros e ->. split.
    + intros (cls & Hin & Hcls).
      assert (existsb (instanceOf e) errorsToCatch = true) as ->; [| done].
      apply existsb_exists. exists cls. split; [by apply list_elem_of_In | done].
    + intros Hnone.
      destruct (existsb (instanceOf e) errorsToCatch) eqn:Hex; [| done].
      apply existsb_exists in Hex as (cls & Hin%list_elem_of_In & Hcls).
      by rewrite (Hnone cls Hin) in Hcls.
Qed.

Lemma getServerUserByToken_run this session t :
  getServerUserByToken this session t =
  (match sendClientRequest this t
           (serverCall this "/users/me" noOptions (Some session) Server) with
   | inl e =>
       if instanceOf e "CannotGetOwnUserWithoutUser" then inr VNull else inl e
   | inr response =>
       match json response with
       | inl e => inl e
       | inr user =>
           if truthy user then inr user
           else inl (newStackAssertionError
                       "User endpoint returned null; this should never happen"
                       None)
       end
   end,
   t ++ [serverCall this "/users/me" noOptions (Some session) Server]).
Proof.
  unfold getServerUserByToken, mbind, Req_bind.
  rewrite sendServerRequestAndCatchKnownError_run.
  destruct (sendClientRequest this t _) as [e | response].
  - simpl. rewrite orb_false_r.
    unfold CannotGetOwnUserWithoutUser.
    destruct (instanceOf e "CannotGetOwnUserWithoutUser") eqn:Hinst; [| done].
    by rewrite Hinst.
  - unfold responseJson.
    destruct (json response) as [e | user]; [done |].
    by destruct (truthy user).
Qed.

(** X15. [getServerUserByToken] asks for [/users/me] once, with the session.
    It returns [null] exactly when the request throws a
    [CannotGetOwnUserWithoutUser], and otherwise only a truthy body.  What
    it throws is the error of the request, the error of reading the body,
    or the assertion that the endpoint returned null: the assertion
    "Unexpected uncaught error" of its source is never thrown. *)
Theorem getServerUserByToken_outcomes this session t :
  (getServerUserByToken this session t).2 =
    t ++ [serverCall this "/users/me" noOptions (Some session) Server] ∧
  ((getServerUserByToken this session t).1 = inr VNull ↔
   ∃ e,
     sendClientRequest this t
       (serverCall this "/users/me" noOptions (Some session) Server) = inl e ∧
     instanceOf e "CannotGetOwnUserWithoutUser" = true) ∧
  (∀ user,
     (getServerUserByToken this session t).1 = inr user →
     user = VNull ∨ truthy user = true) ∧
  (∀ e,
     (getServerUserByToken this session t).1 = inl e →
     sendClientRequest this t
       (serverCall this "/users/me" noOptions (Some session) Server) = inl e ∨
     (∃ response,
        sendClientRequest this t
          (serverCall this "/users/me" noOptions (Some session) Server)
          = inr response ∧
        json response = inl e) ∨
     e = newStackAssertionError
           "User endpoint returned null; this should never happen" None).
Proof.
  rewrite getServerUserByToken_run. simpl.
  destruct (sendClientRequest this t _) as [e | response].
  - destruct (instanceOf e "CannotGetOwnUserWithoutUser") eqn:Hinst.
    + split; [done |]. split; [| split].
      * split; [by exists e | done].
      * intros user [= <-]. by left.
      * done.
    + split; [done |]. split; [| split].
      * split; [done |]. intros (e' & [= <-] & He'). congruence.
      * done.
      * intros e' [= ->]. by left.
  - destruct (json response) as [e | user] eqn:Hjson.
    + split; [done |]. split; [| split].
      * split; [done | by intros (? & ? & _)].
      * done.
      * intros e' [= ->]. right. left. by exists response.
    + destruct (truthy user) eqn:Htruthy.
      * split; [done |]. split; [| split].
        -- split; [| by intros (? & ? & _)].
           intros [= ->]. done.
        -- intros u [= <-]. by right.
        -- done.
      * split; [done |]. split; [| split].
        -- split; [done | by intros (? & ? & _)].
        -- done.
        -- intros e' [= <-]. by right; right.
Qed.

(** X16. [getServerUserById] asks for [/users/<userId>] once, without a
    session.  It returns [Result.ok] only with a truthy body and
    [Result.error], with the error "Failed to get user", exactly when the
    body is not truthy; an error of the request or of reading the body is
    not turned into a [Result.error]: it is thrown. *)
Theorem getServerUserById_outcomes this userId t :
  (getServerUserById this userId t).2 =
    t ++ [serverCall this ("/users/" +:+ userId) noOptions None Server] ∧
  (∀ user, (getServerUserById this userId t).1 = inr (ResultOk user) ↔
     ∃ response,
       sendClientRequest this t
         (serverCall this ("/users/" +:+ userId) noOptions None Server)
         = inr response ∧
       json response = inr user ∧ truthy user = true) ∧
  (∀ error, (getServerUserById this userId t).1 = inr (ResultError error) ↔
     error = newError "Failed to get user" ∧
     ∃ response user,
       sendClientRequest this t
         (serverCall this ("/users/" +:+ userId) noOptions None Server)
         = inr response ∧
       json response = inr user ∧ truthy user = false) ∧
  (∀ e, (getServerUserById this userId t).1 = inl e ↔
     sendClientRequest this t
       (serverCall this ("/users/" +:+ userId) noOptions None Server)
       = inl e ∨
     ∃ response,
       sendClientRequest this t
         (serverCall this ("/users/" +:+ userId) noOptions None Server)
         = inr response ∧
       json response = inl e).
Proof.
  unfold getServerUserById, sendServerRequest, responseJson, mbind, Req_bind.
  destruct (sendClientRequest this t _) as [e | response]; simpl.
  - split; [done |]. split; [| split].
    + intros user. split; [done | by intros (? & ? & _)].
    + intros error. split; [done | by intros (_ & ? & ? & ? & _)].
    + intros e'. split; [intros [= ->]; by left |].
      intros [[= ->] | (? & ? & _)]; done.
  - destruct (json response) as [e | user] eqn:Hjson; simpl.
    + split; [done |]. split; [| split].
      * intros user. split; [done |]. intros (r & [= <-] & Hr & _). congruence.
      * intros error. split; [done |].
        intros (_ & r & u & [= <-] & Hr & _). congruence.
      * intros e'. split.
        -- intros [= ->]. right. by exists response.
        -- intros [? | (r & [= <-] & Hr)]; [done | congruence].
    + destruct (truthy user) eqn:Htruthy; simpl.
      * split; [done |]. split; [| split].
        -- intros u. split.
           ++ intros [= <-]. by exists response.
           ++ intros (r & [= <-] & Hr & _). congruence.
        -- intros error. split; [done |].
           intros (_ & r & u & [= <-] & Hr & Hu). congruence.
        -- intros e'. split; [done |].
           intros [? | (r & [= <-] & Hr)]; [done | congruence].
      * split; [done |]. split; [| split].
        -- intros u. split; [done |].
           intros (r & [= <-] & Hr & Hu). congruence.
        -- intros error. split.
           ++ intros [= <-]. split; [done |]. by exists response, user.
           ++ by intros (-> & _).
        -- intros e'. split; [done |].
           intros [? | (r & [= <-] & Hr)]; [done | congruence].
Qed.

(** A computation that makes no call, and one that makes the single call
    [c]. *)
Lemma silent_bind {A B} (m : Req A) (k : A → Req B) :
  (∀ t, (m t).2 = t) → (∀ a t, (k a t).2 = t) → ∀ t, ((m ≫= k) t).2 = t.
Proof.
  intros Hm Hk t. unfold mbind, Req_bind. specialize (Hm t).
  destruct (m t) as [[e | a] t']; simpl in *; subst t'; [done | apply Hk].
Qed.

Lemma one_call_bind {A B} (m : Req A) (k : A → Req B) c :
  (∀ t, (m t).2 = t ++ [c]) → (∀ a t, (k a t).2 = t) →
  ∀ t, ((m ≫= k) t).2 = t ++ [c].
Proof.
  intros Hm Hk t. unfold mbind, Req_bind. specialize (Hm t).
  destruct (m t) as [[e | a] t']; simpl in *; subst t'; [done | apply Hk].
Qed.

Lemma silent_getItems result t : (getItems result t).2 = t.
Proof. by destruct result. Qed.

Lemma silent_json_items response t :
  ((responseJson response ≫= getItems) t).2 = t.
Proof.
  apply silent_bind; [done | intros; apply silent_getItems].
Qed.

Lemma invoke_call this m :
  ∃ path options session,
    (∀ t, (invoke this m t).2 =
          t ++ [serverCall this path options session Server]) ∧
    reqHeaders options !! "x-stack-secret-server-key" = None ∧
    (is_Some (reqBody options) →
     reqHeaders options !! "content-type" = Some "application/json") ∧
    (∀ s, session = Some s →
       m = GetServerUserByToken s ∨
       (∃ teamId recursive,
          m = ListServerCurrentUserTeamPermissions teamId recursive s) ∨
       m = ListServerCurrentUserTeams s ∨
       ∃ data, m = CreateServerTeam data (Some s)).
Proof.
  destruct m; simpl;
    (eexists _, _, _; split;
     [ first
         [ intros t; unfold mbind at 1; unfold Req_bind at 1;
           rewrite getServerUserByToken_run; by repeat case_match
         | unfold getServerUserById, listServerCurrentUserTeamPermissions,
             listServerCurrentUserTeams, listServerUsers, listServerTeams,
             listServerTeamUsers, createServerTeam, updateServerTeam,
             deleteServerTeam, addServerUserToTeam, removeServerUserFromTeam,
             updateServerUser, listServerTeamMemberPermissions,
             grantServerTeamUserPermission, revokeServerTeamUserPermission,
             deleteServerServerUser;
           repeat (apply one_call_bind;
                   [| intros;
                      first [ apply silent_json_items
                            | apply silent_bind;
                              [done | intros; by case_match]
                            | done ] ]);
           intros t; reflexivity ]
     | split; [reflexivity |]; split;
       [ first [ by intros [? [=]] | reflexivity | by intros _ ]
       | intros s; first [ by intros [=] | intros [= ->]; eauto 10
                         | intros ->; eauto 10 ] ] ]).
Qed.

(** X17. Whatever method of the class is called, it makes exactly one call
    of [sendClientRequest]: of type server, never admin, with the secret
    server key of the options in [x-stack-secret-server-key] (the empty
    string when the options have no key), and with a JSON content type
    whenever it has a body.  Only [getServerUserByToken], the two methods
    that list for the current user and [createServerTeam] pass a session. *)
Theorem every_method_sends_one_server_request this m t :
  ∃ call,
    (invoke this m t).2 = t ++ [call] ∧
    callType call = Server ∧
    reqHeaders (callOptions call) !! "x-stack-secret-server-key" =
      Some match serverOptions this with
           | SecretServerKey secretServerKey => secretServerKey
           | ProjectOwnerSession _ => ""
           end ∧
    (is_Some (reqBody (callOptions call)) →
     reqHeaders (callOptions call) !! "content-type"
       = Some "application/json") ∧
    (∀ s, callSession call = Some s →
       m = GetServerUserByToken s ∨
       (∃ teamId recursive,
          m = ListServerCurrentUserTeamPermissions teamId recursive s) ∨
       m = ListServerCurrentUserTeams s ∨
       ∃ data, m = CreateServerTeam data (Some s)).
Proof.
  destruct (invoke_call this m)
    as (path & options & session & Hrun & Hkey & Hbody & Hsession).
  exists (serverCall this path options session Server).
  split; [apply Hrun |]. split; [done |]. split; [| split].
  - rewrite serverCall_secret_header. by rewrite Hkey.
  - intros Hsome. simpl in *. rewrite lookup_union, (Hbody Hsome).
    by destruct (_ !! "content-type").
  - exact Hsession.
Qed.

Example getServerUserByToken_without_user :
  getServerUserByToken
    (failing (mkJsError ["CannotGetOwnUserWithoutUser"; "KnownError"; "Error"]
                "no user" None)) 5 []
  = (inr VNull,
     [{| callPath := "/users/me";
         callOptions := {| reqMethod := None;
                           reqHeaders := {["x-stack-secret-server-key" := ""]};
                           reqBody := None |};
         callSession := Some 5;
         callType := Server |}]).
Proof. reflexivity. Qed.

(** * The traversal is depth first *)

Lemma forEach_frame (f : ref → list ref → option (list ref)) r xs :
  (∀ x s, x ∈ xs → f x (r :: s) = cons r <$> f x s) →
  ∀ s, forEach f xs (r :: s) = cons r <$> forEach f xs s.
Proof.
  intros Hf. induction xs as [| x xs IH]; intros s; simpl; [done |].
  rewrite Hf by by left. destruct (f x s) as [s' |]; simpl; [| done].
  apply IH. intros y s'' Hy. apply Hf. by right.
Qed.

(** An object that cannot be reached does not matter to the traversal,
    whether it is in the set or not. *)
Lemma addEventType_frame objs r fuel : ∀ x s,
  ¬ reachable objs [x] r →
  addEventType fuel objs x (r :: s) = cons r <$> addEventType fuel objs x s.
Proof.
  induction fuel as [| fuel IH]; intros x s Hx; [done |].
  assert (Hne : x ≠ r).
  { intros ->. apply Hx. apply reachable_root. by left. }
  destruct (decide (x ∈ s)) as [Hin | Hnin].
  - rewrite !addEventType_member; [done | done | by right].
  - rewrite !addEventType_fresh;
      [| done | by intros [? | ?]%elem_of_cons].
    destruct (objs !! x) as [et |] eqn:Het; [| done].
    apply (forEach_frame _ r (inherits et)).
    intros p s' Hp. apply IH. intros Hreach. apply Hx.
    eapply reachable_parent; [exact Het |].
    eapply reachable_mono; [| exact Hreach].
    by intros ? ->%list_elem_of_singleton.
Qed.

(** X18. When a type cannot be reached from its own [inherits], as on an
    acyclic graph, its closure is the type itself followed by the closure
    of its [inherits]: the traversal is depth first, parents in the order
    in which they are declared. *)
Theorem resolveClosure_type_then_parents objs r et closure :
  objs !! r = Some et →
  ¬ reachable objs (inherits et) r →
  resolveClosure objs [r] = Some closure →
  ∃ tail,
    closure = r :: tail ∧ resolveClosure objs (inherits et) = Some tail.
Proof.
  intros Het Hacyclic. unfold resolveClosure.
  change (forEach ?f [r] []) with
    (match f r [] with Some s' => Some s' | None => None end).
  rewrite addEventType_fresh by apply not_elem_of_nil. rewrite Het.
  change ([] ++ [r]) with [r].
  rewrite (forEach_frame _ r (inherits et)).
  - destruct (forEach _ (inherits et) []) as [tail |] eqn:Htail; [| done].
    intros [= <-]. exists tail. split; [done |].
    eapply forEach_ext; [| exact Htail].
    intros x s s'. apply addEventType_fuel. lia.
  - intros p s Hp. apply addEventType_frame. intros Hreach.
    apply Hacyclic. eapply reachable_mono; [| exact Hreach].
    by intros ? ->%list_elem_of_singleton.
Qed.

Lemma resolveClosure_type_then_parents_witness :
  diamondStore !! 10 = Some (plainType "$A" [11; 12]) ∧
  ¬ reachable diamondStore [11; 12] 10 ∧
  resolveClosure diamondStore [10] = Some [10; 11; 13; 12] ∧
  ∃ tail,
    [10; 11; 13; 12] = 10 :: tail ∧
    resolveClosure diamondStore [11; 12] = Some tail.
Proof.
  assert (Hacyclic : ¬ reachable diamondStore [11; 12] 10).
  { intros Hreach.
    assert (Hcl : resolveClosure diamondStore [11; 12] = Some [11; 13; 12])
      by reflexivity.
    destruct (resolveClosure_spec _ _ _ Hcl) as (_ & Hiff & _).
    apply Hiff in Hreach. revert Hreach.
    apply (bool_decide_unpack _). vm_compute. exact I. }
  split; [reflexivity |]. split; [exact Hacyclic |]. split; [reflexivity |].
  apply (resolveClosure_type_then_parents diamondStore 10
           (plainType "$A" [11; 12]) [10; 11; 13; 12] eq_refl Hacyclic
           eq_refl).
Defined.

(** * The clock *)

(** X19. The clock is read only when the caller gives no [time]: with a
    [time] option, the call goes the same way whatever the current date
    is. *)
Theorem logEvent_with_time_ignores_clock env now eventTypes payload options :
  time options ≠ None →
  run (logEvent (withDate now env) eventTypes payload options)
    = run (logEvent env eventTypes payload options).
Proof.
  intros Htime. unfold run, logEvent, timeOrTimeRange. simpl.
  destruct (time options) as [t |]; [| done].
  destruct (timeRange t) as [range wide].
  unfold mbind at 1 5. unfold M_bind at 1 5.
  by rewrite (forOf_ext (assertValid (withDate now env)) (assertValid env)).
Qed.

Lemma logEvent_with_time_ignores_clock_witness :
  Some (TimeDate 7) ≠ None ∧
  run (logEvent (withDate 2000 (testEnv 100)) [0] projectPayload
         {| time := Some (TimeDate 7) |})
    = run (logEvent (testEnv 100) [0] projectPayload
             {| time := Some (TimeDate 7) |}).
Proof.
  assert (Htime : Some (TimeDate 7) ≠ None) by discriminate.
  split; [exact Htime |].
  apply (logEvent_with_time_ignores_clock (testEnv 100) 2000 [0]
           projectPayload {| time := Some (TimeDate 7) |} Htime).
Defined.

(** * More theorems at concrete calls *)

Lemma logEvent_storage_error_witness :
  (∃ record,
     persisted (run (logEvent downEnv [0] projectPayload
                       {| time := None |})).2 = [record] ∧
     eventCreate downEnv record = Some "connection refused") ∧
  (run (logEvent downEnv [0] projectPayload {| time := None |})).1
    = Throw (StorageError "connection refused").
Proof.
  assert (Hsink : ∃ record,
     persisted (run (logEvent downEnv [0] projectPayload
                       {| time := None |})).2 = [record] ∧
     eventCreate downEnv record = Some "connection refused").
  { exists (projectRecord 100 100 false). split; reflexivity. }
  split; [exact Hsink |].
  apply (proj2 (logEvent_storage_error downEnv [0] projectPayload
                  {| time := None |} "connection refused") Hsink).
Defined.

Lemma sendServerRequest_call_witness :
  "content-type" ≠ "x-stack-secret-server-key" ∧
  ∃ call,
    sendServerRequest (answering "sk" VNull) "/teams"
      (jsonOptions "POST" (VObject [])) None Server [] =
      (sendClientRequest (answering "sk" VNull) [] call, [] ++ [call]) ∧
    reqHeaders (callOptions call) !! "content-type" =
      reqHeaders (jsonOptions "POST" (VObject [])) !! "content-type".
Proof.
  assert (Hne : "content-type" ≠ "x-stack-secret-server-key") by discriminate.
  split; [exact Hne |].
  destruct (sendServerRequest_call (answering "sk" VNull) "/teams"
              (jsonOptions "POST" (VObject [])) None Server [])
    as (call & Hrun & _ & _ & _ & _ & _ & Hother & _).
  exists call. split; [exact Hrun | exact (Hother "content-type" Hne)].
Defined.

Lemma sendServerRequestAndCatchKnownError_spec_witness :
  sendClientRequest (failing (mkJsError ["KnownError"; "Error"] "known" None))
    [] (serverCall (failing (mkJsError ["KnownError"; "Error"] "known" None))
          "/users/me" noOptions None Server)
    = inl (mkJsError ["KnownError"; "Error"] "known" None) ∧
  (∃ cls, cls ∈ ["Other"; "KnownError"] ∧
          instanceOf (mkJsError ["KnownError"; "Error"] "known" None) cls
            = true) ∧
  (sendServerRequestAndCatchKnownError
     (failing (mkJsError ["KnownError"; "Error"] "known" None))
     "/users/me" noOptions None ["Other"; "KnownError"] []).1
    = inr (ResultError (mkJsError ["KnownError"; "Error"] "known" None)).
Proof.
  assert (Hcls : ∃ cls, cls ∈ ["Other"; "KnownError"] ∧
          instanceOf (mkJsError ["KnownError"; "Error"] "known" None) cls
            = true).
  { exists "KnownError". split; [right; left | reflexivity]. }
  split; [reflexivity |]. split; [exact Hcls |].
  apply (proj1 (proj2 (proj2 (sendServerRequestAndCatchKnownError_spec
                                 (failing (mkJsError ["KnownError"; "Error"]
                                             "known" None))
                                 "/users/me" noOptions None
                                 ["Other"; "KnownError"] []))
                  _ eq_refl) Hcls).
Defined.

Lemma getServerUserByToken_outcomes_witness :
  (∃ e,
     sendClientRequest
       (failing (mkJsError ["CannotGetOwnUserWithoutUser"; "Error"] "" None))
       []
       (serverCall
          (failing (mkJsError ["CannotGetOwnUserWithoutUser"; "Error"] ""
                      None))
          "/users/me" noOptions (Some 5) Server) = inl e ∧
     instanceOf e "CannotGetOwnUserWithoutUser" = true) ∧
  (getServerUserByToken
     (failing (mkJsError ["CannotGetOwnUserWithoutUser"; "Error"] "" None))
     5 []).1 = inr VNull.
Proof.
  assert (Hthrown : ∃ e,
     sendClientRequest
       (failing (mkJsError ["CannotGetOwnUserWithoutUser"; "Error"] "" None))
       []
       (serverCall
          (failing (mkJsError ["CannotGetOwnUserWithoutUser"; "Error"] ""
                      None))
          "/users/me" noOptions (Some 5) Server) = inl e ∧
     instanceOf e "CannotGetOwnUserWithoutUser" = true).
  { eexists. split; reflexivity. }
  split; [exact Hthrown |].
  apply (proj2 (proj1 (proj2 (getServerUserByToken_outcomes
                                 (failing (mkJsError
                                             ["CannotGetOwnUserWithoutUser";
                                              "Error"] "" None))
                                 5 []))) Hthrown).
Defined.

Lemma getServerUserById_outcomes_witness :
  (newError "Failed to get user" = newError "Failed to get user" ∧
   ∃ response user,
     sendClientRequest (answering "sk" VNull) []
       (serverCall (answering "sk" VNull) ("/users/" +:+ "u1") noOptions None
          Server) = inr response ∧
     json response = inr user ∧ truthy user = false) ∧
  (getServerUserById (answering "sk" VNull) "u1" []).1
    = inr (ResultError (newError "Failed to get user")).
Proof.
  assert (Hfalsy :
    newError "Failed to get user" = newError "Failed to get user" ∧
    ∃ response user,
      sendClientRequest (answering "sk" VNull) []
        (serverCall (answering "sk" VNull) ("/users/" +:+ "u1") noOptions None
           Server) = inr response ∧
      json response = inr user ∧ truthy user = false).
  { split; [reflexivity |]. eexists _, _. repeat split; reflexivity. }
  split; [exact Hfalsy |].
  apply (proj2 (proj1 (proj2 (proj2 (getServerUserById_outcomes
                                        (answering "sk" VNull) "u1" [])))
                  (newError "Failed to get user")) Hfalsy).
Defined.

Lemma every_method_sends_one_server_request_witness :
  ∃ call,
    (invoke (answering "sk" VNull) (CreateServerTeam (VObject []) (Some 3))
       []).2 = [] ++ [call] ∧
    callType call = Server ∧
    reqHeaders (callOptions call) !! "x-stack-secret-server-key" = Some "sk" ∧
    reqHeaders (callOptions call) !! "content-type" = Some "application/json".
Proof.
  destruct (every_method_sends_one_server_request (answering "sk" VNull)
              (CreateServerTeam (VObject []) (Some 3)) [])
    as (call & Hrun & Htype & Hkey & Hbody & _).
  exists call. split; [exact Hrun |]. split; [exact Htype |].
  split; [exact Hkey |]. apply Hbody.
  assert (Hcall : [serverCall (answering "sk" VNull) "/teams"
                     (jsonOptions "POST" (VObject [])) (Some 3) Server]
                  = [] ++ [call]) by exact Hrun.
  injection Hcall as <-. by eexists.
Defined.
